(** * Alert-text pipeline of the notification bell (src/client/src/components/Header.tsx)

    Shallow embedding of the client-side helpers [parseEquipmentAlert],
    [sanitizeDisplayText] and of the [alertsData] reconciler.

    Strings.  JavaScript strings are sequences of UTF-16 code units; the
    model uses ASCII text ([list ascii]), one character per code unit.
    Non-ASCII characters named by the source (the dashes U+2014/U+2013 in the
    title pattern, the bullets U+2022/U+2023/U+25E6 in the inline splitter)
    cannot occur in a modelled text, so the alternatives that mention them
    never fire and are left out of the translated patterns. *)

From Stdlib Require Import Ascii String List Bool Arith ZArith NArith Lia Permutation Sorted.
Import ListNotations.
Open Scope list_scope.
Set Warnings "-register-all".

(** ** Text *)

Definition text := list ascii.

Fixpoint text_eqb (a b : text) : bool :=
  match a, b with
  | [], [] => true
  | c :: a', d :: b' => (c =? d)%char && text_eqb a' b'
  | _, _ => false
  end.

(** A Rocq string literal read as a text. *)
Definition txt (s : string) : text := list_ascii_of_string s.

(** A string literal in which every backquote stands for a double quote,
    so that JSON-bearing inputs can be written without escaped quotes. *)
Definition jq (s : string) : text :=
  map (fun c => if (c =? "`")%char then ascii_of_nat 34 else c) (txt s).

Definition c_lbrace : ascii := "{"%char.
Definition c_rbrace : ascii := "}"%char.
Definition c_dquote : ascii := ascii_of_nat 34.
Definition c_nl : ascii := ascii_of_nat 10.

(** Character tests used by String.prototype.trim and by the [\s] class
    (ASCII part: TAB, LF, VT, FF, CR, SPACE). *)
Definition is_space (c : ascii) : bool :=
  let n := nat_of_ascii c in
  (9 <=? n) && (n <=? 13) || (n =? 32).

Definition is_digit (c : ascii) : bool :=
  let n := nat_of_ascii c in (48 <=? n) && (n <=? 57).
Definition is_upper (c : ascii) : bool :=
  let n := nat_of_ascii c in (65 <=? n) && (n <=? 90).
Definition is_lower (c : ascii) : bool :=
  let n := nat_of_ascii c in (97 <=? n) && (n <=? 122).
Definition is_alpha (c : ascii) : bool := is_upper c || is_lower c.
Definition is_alnum (c : ascii) : bool := is_alpha c || is_digit c.
(** Word characters of [\b]: [A-Za-z0-9_]. *)
Definition is_word (c : ascii) : bool := is_alnum c || (c =? "_")%char.

(** String.prototype.toLowerCase on ASCII. *)
Definition lower_char (c : ascii) : ascii :=
  if is_upper c then ascii_of_nat (nat_of_ascii c + 32) else c.
Definition toLowerCase (s : text) : text := map lower_char s.

(** String.prototype.trim. *)
Fixpoint trim_start (s : text) : text :=
  match s with
  | c :: s' => if is_space c then trim_start s' else s
  | [] => []
  end.
Definition trim (s : text) : text := rev (trim_start (rev (trim_start s))).

(** Prefix test and String.prototype.indexOf / includes. *)
Fixpoint prefixb (p s : text) : bool :=
  match p, s with
  | [], _ => true
  | c :: p', d :: s' => (c =? d)%char && prefixb p' s'
  | _ :: _, [] => false
  end.

Fixpoint find_from (key s : text) (i : nat) : option nat :=
  if prefixb key s then Some i
  else match s with
       | [] => None
       | _ :: s' => find_from key s' (S i)
       end.

(** [s.indexOf(key, from)] (the source calls it with [from] inside [s]). *)
Definition indexOf (s key : text) (from : nat) : option nat :=
  find_from key (skipn from s) from.

Definition includes (s key : text) : bool :=
  match indexOf s key 0 with Some _ => true | None => false end.

(** [s.lastIndexOf(c, from)] for a one-character search string. *)
Fixpoint lastIndexOf_char (s : text) (c : ascii) (from : nat) : option nat :=
  if (match nth_error s from with Some d => (d =? c)%char | None => false end)
  then Some from
  else match from with
       | O => None
       | S k => lastIndexOf_char s c k
       end.

(** [s.slice(a, b)] for [a <= b <= length s]. *)
Definition slice (s : text) (a b : nat) : text := firstn (b - a) (skipn a s).

(** ** extractJsonAroundKey (Header.tsx, lines 55-76) *)

(** The scanning loop: [i] is the absolute index of the head of [s],
    [depth] the brace depth so far; the result is the index of the ['}']
    that brings the depth back to 0. *)
Fixpoint scan_close (s : text) (i : nat) (depth : Z) : option nat :=
  match s with
  | [] => None
  | ch :: s' =>
      if (ch =? c_lbrace)%char then scan_close s' (S i) (depth + 1)%Z
      else if (ch =? c_rbrace)%char then
        if (depth - 1 =? 0)%Z then Some i
        else scan_close s' (S i) (depth - 1)%Z
      else scan_close s' (S i) depth
  end.

(** The opening brace chosen for a key found at [idx]. *)
Definition open_brace (t : text) (idx : nat) : option nat :=
  match indexOf t [c_lbrace] idx with
  | Some o => Some o
  | None => lastIndexOf_char t c_lbrace idx
  end.

Definition extractJsonAroundKey (t key : text) : option text :=
  match indexOf t key 0 with
  | None => None
  | Some idx =>
      match open_brace t idx with
      | None => None
      | Some o =>
          match scan_close (skipn o t) o 0 with
          | Some j => Some (slice t o (S j))
          | None => None
          end
      end
  end.

(** ** Regular expressions

    The source leans on JavaScript regular expressions.  They are embedded
    as terms of a small syntax, matched by a backtracking matcher that
    follows the ECMAScript semantics: ordered alternation, greedy and lazy
    quantifiers with the empty-iteration check, capture groups and
    back-references, [\b] and [$] (no multiline flag).  The matcher is in
    continuation-passing style; [fuel] bounds the nesting depth of calls,
    which grows by one per quantifier iteration, so [length s + 1000]
    is more than any pattern of the source needs. *)

Inductive re : Type :=
| RChr (p : ascii -> bool)
| REmp
| RCat (a b : re)
| RAlt (a b : re)
| RRep (mn : nat) (mx : option nat) (greedy : bool) (a : re)
| RGrp (n : nat) (a : re)
| RRef (n : nat)
| RWordB
| REnd.

Definition caps := list (nat * (nat * nat)).

Fixpoint cap_lookup (n : nat) (c : caps) : option (nat * nat) :=
  match c with
  | [] => None
  | (m, sp) :: c' => if m =? n then Some sp else cap_lookup n c'
  end.

Definition word_at (s : text) (i : nat) : bool :=
  match nth_error s i with Some c => is_word c | None => false end.

Definition pred_opt (mx : option nat) : option nat :=
  match mx with Some n => Some (pred n) | None => None end.

Fixpoint mt (s : text) (fuel : nat) (r : re)
    (k : nat -> caps -> option (nat * caps)) (i : nat) (c : caps)
    : option (nat * caps) :=
  match fuel with
  | O => None
  | S f =>
    match r with
    | RChr p =>
        match nth_error s i with
        | Some ch => if p ch then k (S i) c else None
        | None => None
        end
    | REmp => k i c
    | RCat a b => mt s f a (fun i' c' => mt s f b k i' c') i c
    | RAlt a b =>
        match mt s f a k i c with
        | Some x => Some x
        | None => mt s f b k i c
        end
    | RGrp n a => mt s f a (fun i' c' => k i' ((n, (i, i')) :: c')) i c
    | RRef n =>
        match cap_lookup n c with
        | None => k i c
        | Some (a, b) =>
            if prefixb (slice s a b) (skipn i s) then k (i + (b - a)) c else None
        end
    | RWordB =>
        let before := match i with O => false | S j => word_at s j end in
        if xorb before (word_at s i) then k i c else None
    | REnd => if i =? length s then k i c else None
    | RRep mn mx g a =>
        match mx with
        | Some O => k i c
        | _ =>
          match mn with
          | S mn' => mt s f a (fun i' c' => mt s f (RRep mn' (pred_opt mx) g a) k i' c') i c
          | O =>
            let more :=
              mt s f a (fun i' c' =>
                if i' =? i then None else mt s f (RRep 0 (pred_opt mx) g a) k i' c') i c in
            if g then match more with Some x => Some x | None => k i c end
            else match k i c with Some x => Some x | None => more end
          end
        end
    end
  end.

Definition re_fuel (s : text) : nat := length s + 1000.

(** A match starting exactly at [i]: its end and its captures. *)
Definition exec_at (s : text) (r : re) (i : nat) : option (nat * caps) :=
  mt s (re_fuel s) r (fun j c => Some (j, c)) i [].

Fixpoint search_n (s : text) (r : re) (n i : nat) : option (nat * nat * caps) :=
  match n with
  | O => None
  | S n' =>
      match exec_at s r i with
      | Some (j, c) => Some (i, j, c)
      | None => search_n s r n' (S i)
      end
  end.

(** RegExpBuiltinExec from [lastIndex = from]: the leftmost match at or after [from]. *)
Definition search (s : text) (r : re) (from : nat) : option (nat * nat * caps) :=
  if length s <? from then None else search_n s r (S (length s - from)) from.

(** All matches of a global regular expression, in the order of the
    [exec] loop (an empty match advances [lastIndex] by one). *)
Fixpoint matches_from (s : text) (r : re) (n from : nat) : list (nat * nat * caps) :=
  match n with
  | O => []
  | S n' =>
      match search s r from with
      | None => []
      | Some (st, en, c) =>
          (st, en, c) :: matches_from s r n' (if en =? st then S en else en)
      end
  end.

Definition matches (s : text) (r : re) : list (nat * nat * caps) :=
  matches_from s r (S (S (length s))) 0.

Definition group (s : text) (c : caps) (n : nat) : option text :=
  match cap_lookup n c with Some (a, b) => Some (slice s a b) | None => None end.

Fixpoint splice (s : text) (pos : nat) (ms : list (nat * nat * caps))
    (f : text -> caps -> text) : text :=
  match ms with
  | [] => skipn pos s
  | (st, en, c) :: ms' => slice s pos st ++ f (slice s st en) c ++ splice s en ms' f
  end.

(** [s.replace(/r/g, f)] and [s.replace(/r/, f)]. *)
Definition replace_all_f (s : text) (r : re) (f : text -> caps -> text) : text :=
  splice s 0 (matches s r) f.
Definition replace_all (s : text) (r : re) (by_ : text) : text :=
  replace_all_f s r (fun _ _ => by_).
Definition replace_first (s : text) (r : re) (by_ : text) : text :=
  match search s r 0 with
  | None => s
  | Some m => splice s 0 [m] (fun _ _ => by_)
  end.

(** [s.match(/r/g) || []]: the matched substrings. *)
Definition match_g (s : text) (r : re) : list text :=
  map (fun '(st, en, _) => slice s st en) (matches s r).

(** Group [n] of [s.match(/r/)] (no global flag). *)
Definition match_group (s : text) (r : re) (n : nat) : option text :=
  match search s r 0 with
  | Some (_, _, c) => group s c n
  | None => None
  end.

(** [s.replace(str, by)] with a string pattern: first occurrence only. *)
Definition replace_str (s pat by_ : text) : text :=
  match indexOf s pat 0 with
  | Some i => firstn i s ++ by_ ++ skipn (i + length pat) s
  | None => s
  end.

(** [s.split(/r/)] for a pattern without capture groups
    (String.prototype.split through RegExp.prototype[@@split]). *)
Fixpoint split_loop (s : text) (r : re) (n p q : nat) : list text :=
  match n with
  | O => [skipn p s]
  | S n' =>
      if q <? length s then
        match exec_at s r q with
        | None => split_loop s r n' p (S q)
        | Some (e, _) =>
            let e := Nat.min e (length s) in
            if e =? p then split_loop s r n' p (S q)
            else slice s p q :: split_loop s r n' e e
        end
      else [skipn p s]
  end.

Definition split_re (s : text) (r : re) : list text :=
  match s with
  | [] => match exec_at s r 0 with Some _ => [] | None => [s] end
  | _ => split_loop s r (2 * length s + 2) 0 0
  end.

(** Pattern building blocks. *)
Definition chr (c : ascii) : re := RChr (fun d => (d =? c)%char).
(** A letter under the [i] flag. *)
Definition chr_i (c : ascii) : re := RChr (fun d => (lower_char d =? lower_char c)%char).
Fixpoint lit (s : text) : re :=
  match s with [] => REmp | c :: s' => RCat (chr c) (lit s') end.
Fixpoint lit_i (s : text) : re :=
  match s with [] => REmp | c :: s' => RCat (chr_i c) (lit_i s') end.
Fixpoint seq (rs : list re) : re :=
  match rs with [] => REmp | [r] => r | r :: rs' => RCat r (seq rs') end.
Definition star (a : re) : re := RRep 0 None true a.
Definition plus (a : re) : re := RRep 1 None true a.
Definition opt (a : re) : re := RRep 0 (Some 1) true a.
Definition space : re := RChr is_space.
(** [.]: any character but a line terminator (LF, CR in ASCII). *)
Definition dot : re :=
  RChr (fun d => negb ((nat_of_ascii d =? 10) || (nat_of_ascii d =? 13))).
Definition not_nl : re := RChr (fun d => negb (d =? c_nl)%char).
Definition any : re := RChr (fun _ => true).
Definition in_chars (cs : text) (d : ascii) : bool := existsb (fun c => (c =? d)%char) cs.

(** [s.match(/(\{[\s\S]*?\})/g) || []]: the non-greedy pattern runs from a
    ['{'] to the first ['}'] after it, and the matches do not overlap; an
    unterminated ['{'] ends the scan.  The pattern is translated directly;
    [lazy_block_re] below is the same pattern for the matcher, and the two
    are compared on examples. *)
Fixpoint segs (s : text) (cur : option text) : list text :=
  match s with
  | [] => []
  | c :: s' =>
      match cur with
      | None => if (c =? c_lbrace)%char then segs s' (Some [c]) else segs s' None
      | Some acc =>
          if (c =? c_rbrace)%char then rev (c :: acc) :: segs s' None
          else segs s' (Some (c :: acc))
      end
  end.

Definition brace_segments (s : text) : list text := segs s None.

Definition lazy_block_re : re :=
  RGrp 1 (seq [chr c_lbrace; RRep 0 None false any; chr c_rbrace]).

(** ** sanitizeDisplayText (Header.tsx, lines 380-421) *)

Definition c_bslash : ascii := ascii_of_nat 92.

(** [/\\n/g] and the same with a double quote after the backslash. *)
Definition esc_n_re : re := seq [chr c_bslash; chr "n"%char].
Definition esc_q_re : re := seq [chr c_bslash; chr c_dquote].

Definition unescape (s : text) : text :=
  replace_all (replace_all s esc_n_re [c_nl]) esc_q_re [c_dquote].

Definition local_cls (d : ascii) : bool := is_alnum d || in_chars (txt "._%+-") d.
Definition domain_cls (d : ascii) : bool := is_alnum d || in_chars (txt ".-") d.

(** [/[a-zA-Z0-9._%+-]+@[a-zA-Z0-9.-]+\.[A-Za-z]{2,}/] *)
Definition email_re : re :=
  seq [plus (RChr local_cls); chr "@"%char; plus (RChr domain_cls); chr "."%char;
       RRep 2 None true (RChr is_alpha)].

(** The four [items] patterns, written with Q for a double quote:
    [/QitemsQ\s*:\s*/gi], [/itemsQ\s*:\s*/gi], [/QitemsQ/gi], [/itemsQ:/gi]. *)
Definition items_colon_q_re : re :=
  seq [chr c_dquote; lit_i (txt "items"); chr c_dquote; star space; chr ":"%char; star space].
Definition items_colon_re : re :=
  seq [lit_i (txt "items"); chr c_dquote; star space; chr ":"%char; star space].
Definition items_q_re : re := seq [chr c_dquote; lit_i (txt "items"); chr c_dquote].
Definition items_qc_re : re := seq [lit_i (txt "items"); chr c_dquote; chr ":"%char].

(** [\s-\s] *)
Definition sep_dash_re : re := seq [space; chr "-"%char; space].

(** [/(\s-\s[^\n]+)(?:\s-\s[^\n]+){1,}/g] *)
Definition dash_list_re : re :=
  RCat (RGrp 1 (RCat sep_dash_re (plus not_nl)))
       (RRep 1 None true (RCat sep_dash_re (plus not_nl))).

Fixpoint join (sep : text) (l : list text) : text :=
  match l with
  | [] => []
  | [x] => x
  | x :: l' => x ++ sep ++ join sep l'
  end.

(** The replacement callback of the dash-list step. *)
Definition collapse_dash_list (m : text) : text :=
  let parts := filter (fun p => negb (match p with [] => true | _ => false end))
                      (map trim (split_re m sep_dash_re)) in
  txt " " ++ join (txt ", ") parts.

(** [/(\b[^\n]{5,200})\s+\1/g], replaced by [$1]. *)
Definition dup_adjacent_re : re :=
  RCat (RGrp 1 (RCat RWordB (RRep 5 (Some 200) true not_nl)))
       (RCat (plus space) (RRef 1)).

Definition group1_or_empty (m : text) (c : caps) : text :=
  match cap_lookup 1 c with Some (a, b) => slice m (a - a) (b - a) | None => [] end.

(** [/[{}\[\]Q]/g] (Q a double quote), [/\s{2,}/g], [/[-,:;\s]+$/g] *)
Definition brace_quote_re : re := RChr (in_chars [c_lbrace; c_rbrace; "["%char; "]"%char; c_dquote]).
Definition spaces2_re : re := RRep 2 None true space.
Definition trailing_sep_re : re :=
  RCat (plus (RChr (fun d => in_chars (txt "-,:;") d || is_space d))) REnd.

(** [s.slice(0, 300) + '...'] when longer than 300. *)
Definition truncate300 (s : text) : text :=
  if 300 <? length s then firstn 300 s ++ txt "..." else s.

(** The body of the [try] block; no step can throw on a string, so the
    [catch] branch is never taken. *)
Definition sanitizeDisplayText (input : text) : text :=
  let s := unescape input in
  let s := fold_left (fun s b => replace_str s b []) (brace_segments s) s in
  let s := trim (replace_all s email_re []) in
  let s := replace_all (replace_all (replace_all (replace_all s
             items_colon_q_re []) items_colon_re []) items_q_re []) items_qc_re [] in
  let s := replace_all_f s dash_list_re (fun m _ => collapse_dash_list m) in
  let s := replace_all_f s dup_adjacent_re (fun m c => group1_or_empty m c) in
  let s := replace_all s brace_quote_re [] in
  let s := trim (replace_all s spaces2_re (txt " ")) in
  let s := trim (replace_all s trailing_sep_re []) in
  truncate300 s.

(** ** JSON values and JSON.parse *)

(** The values [JSON.parse] produces.  A number keeps its source lexeme. *)
Inductive jval : Type :=
| JNull
| JBool (b : bool)
| JNum (lexeme : text)
| JStr (s : text)
| JArr (l : list jval)
| JObj (fields : list (text * jval)).

Fixpoint assoc (k : text) (fs : list (text * jval)) : option jval :=
  match fs with
  | [] => None
  | (k', v) :: fs' => if text_eqb k k' then Some v else assoc k fs'
  end.

(** CreateDataProperty on an ordinary object: a new key goes last, an
    existing key keeps its place and takes the new value. *)
Fixpoint obj_set (fs : list (text * jval)) (k : text) (v : jval) : list (text * jval) :=
  match fs with
  | [] => [(k, v)]
  | (k', v') :: fs' =>
      if text_eqb k k' then (k', v) :: fs' else (k', v') :: obj_set fs' k v
  end.

Definition json_ws (c : ascii) : bool :=
  let n := nat_of_ascii c in (n =? 32) || (n =? 9) || (n =? 10) || (n =? 13).

Fixpoint skip_ws (s : text) : text :=
  match s with c :: s' => if json_ws c then skip_ws s' else s | [] => [] end.

Definition hex_val (c : ascii) : option nat :=
  let n := nat_of_ascii c in
  if is_digit c then Some (n - 48)
  else if (97 <=? n) && (n <=? 102) then Some (n - 87)
  else if (65 <=? n) && (n <=? 70) then Some (n - 55)
  else None.

(** A [\uXXXX] escape: ASCII code points decode to their character; any
    other code point is outside the ASCII model and decodes to ['?']. *)
Definition decode_u (a b c d : ascii) : option ascii :=
  match hex_val a, hex_val b, hex_val c, hex_val d with
  | Some x, Some y, Some z, Some w =>
      let n := ((x * 16 + y) * 16 + z) * 16 + w in
      Some (if n <? 128 then ascii_of_nat n else "?"%char)
  | _, _, _, _ => None
  end.

(** The body of a string literal after its opening quote. *)
Fixpoint lex_string (s : text) (acc : text) : option (text * text) :=
  match s with
  | [] => None
  | c :: s' =>
      if (c =? c_dquote)%char then Some (rev acc, s')
      else if nat_of_ascii c <? 32 then None
      else if (c =? c_bslash)%char then
        match s' with
        | e :: s'' =>
            let simple ch := lex_string s'' (ch :: acc) in
            if (e =? c_dquote)%char then simple c_dquote
            else if (e =? c_bslash)%char then simple c_bslash
            else if (e =? "/")%char then simple "/"%char
            else if (e =? "b")%char then simple (ascii_of_nat 8)
            else if (e =? "f")%char then simple (ascii_of_nat 12)
            else if (e =? "n")%char then simple (ascii_of_nat 10)
            else if (e =? "r")%char then simple (ascii_of_nat 13)
            else if (e =? "t")%char then simple (ascii_of_nat 9)
            else if (e =? "u")%char then
              match s'' with
              | a :: b :: c1 :: d :: s3 =>
                  match decode_u a b c1 d with
                  | Some ch => lex_string s3 (ch :: acc)
                  | None => None
                  end
              | _ => None
              end
            else None
        | [] => None
        end
      else lex_string s' (c :: acc)
  end.

Fixpoint span_digits (s : text) : text * text :=
  match s with
  | c :: s' => if is_digit c then let '(d, r) := span_digits s' in (c :: d, r) else ([], s)
  | [] => ([], [])
  end.

(** [-? (0 | [1-9][0-9]* ) (. [0-9]+)? ([eE] [+-]? [0-9]+)?] *)
Definition lex_number (s : text) : option (text * text) :=
  let '(sign, s1) := match s with
                     | c :: s' => if (c =? "-")%char then ([c], s') else ([], s)
                     | [] => ([], s) end in
  let int_part :=
    match s1 with
    | c :: s' =>
        if (c =? "0")%char then Some ([c], s')
        else if is_digit c then let '(d, r) := span_digits s' in Some (c :: d, r)
        else None
    | [] => None
    end in
  match int_part with
  | None => None
  | Some (ip, s2) =>
      let frac :=
        match s2 with
        | c :: s' =>
            if (c =? ".")%char then
              let '(d, r) := span_digits s' in
              match d with [] => None | _ => Some (c :: d, r) end
            else Some ([], s2)
        | [] => Some ([], s2)
        end in
      match frac with
      | None => None
      | Some (fp, s3) =>
          let expo :=
            match s3 with
            | c :: s' =>
                if (c =? "e")%char || (c =? "E")%char then
                  let '(sg, s4) := match s' with
                                   | d :: s'' => if (d =? "+")%char || (d =? "-")%char
                                                 then ([d], s'') else ([], s')
                                   | [] => ([], s') end in
                  let '(d, r) := span_digits s4 in
                  match d with [] => None | _ => Some (c :: sg ++ d, r) end
                else Some ([], s3)
            | [] => Some ([], s3)
            end in
          match expo with
          | None => None
          | Some (ep, s5) => Some (sign ++ ip ++ fp ++ ep, s5)
          end
      end
  end.

Fixpoint parse_value (fuel : nat) (s : text) : option (jval * text) :=
  match fuel with
  | O => None
  | S f =>
    match skip_ws s with
    | [] => None
    | c :: s' =>
      if (c =? c_dquote)%char then
        match lex_string s' [] with Some (str, r) => Some (JStr str, r) | None => None end
      else if (c =? c_lbrace)%char then
        match skip_ws s' with
        | d :: r => if (d =? c_rbrace)%char then Some (JObj [], r) else parse_members f s' []
        | [] => None
        end
      else if (c =? "[")%char then
        match skip_ws s' with
        | d :: r => if (d =? "]")%char then Some (JArr [], r) else parse_elements f s' []
        | [] => None
        end
      else if prefixb (txt "true") (c :: s') then Some (JBool true, skipn 4 (c :: s'))
      else if prefixb (txt "false") (c :: s') then Some (JBool false, skipn 5 (c :: s'))
      else if prefixb (txt "null") (c :: s') then Some (JNull, skipn 4 (c :: s'))
      else match lex_number (c :: s') with
           | Some (lx, r) => Some (JNum lx, r)
           | None => None
           end
    end
  end
(** Members of an object after its ['{']; [acc] is the object so far. *)
with parse_members (fuel : nat) (s : text) (acc : list (text * jval)) : option (jval * text) :=
  match fuel with
  | O => None
  | S f =>
    match skip_ws s with
    | c :: s' =>
      if (c =? c_dquote)%char then
        match lex_string s' [] with
        | Some (k, r) =>
            match skip_ws r with
            | d :: r' =>
                if (d =? ":")%char then
                  match parse_value f r' with
                  | Some (v, r'') =>
                      let acc' := obj_set acc k v in
                      match skip_ws r'' with
                      | e :: r3 =>
                          if (e =? ",")%char then parse_members f r3 acc'
                          else if (e =? c_rbrace)%char then Some (JObj acc', r3)
                          else None
                      | [] => None
                      end
                  | None => None
                  end
                else None
            | [] => None
            end
        | None => None
        end
      else None
    | [] => None
    end
  end
with parse_elements (fuel : nat) (s : text) (acc : list jval) : option (jval * text) :=
  match fuel with
  | O => None
  | S f =>
    match parse_value f s with
    | Some (v, r) =>
        match skip_ws r with
        | e :: r' =>
            if (e =? ",")%char then parse_elements f r' (acc ++ [v])
            else if (e =? "]")%char then Some (JArr (acc ++ [v]), r')
            else None
        | [] => None
        end
    | None => None
    end
  end.

(** [JSON.parse(s)]: [None] where it throws a SyntaxError.  Every nesting
    level and every member consumes input, so [2 * length s + 2] fuel is
    never exhausted. *)
Definition JSON_parse (s : text) : option jval :=
  match parse_value (2 * length s + 2) s with
  | Some (v, r) => match skip_ws r with [] => Some v | _ => None end
  | None => None
  end.

(** ** JavaScript views of JSON values *)

(** A number lexeme denotes zero when its mantissa has no non-zero digit. *)
Fixpoint mantissa_zero (lx : text) : bool :=
  match lx with
  | [] => true
  | c :: r =>
      if (c =? "e")%char || (c =? "E")%char then true
      else if in_chars (txt "-0.") c then mantissa_zero r else false
  end.

(** Truthiness; [None] is [undefined]. *)
Definition truthy (v : option jval) : bool :=
  match v with
  | None | Some JNull => false
  | Some (JBool b) => b
  | Some (JNum lx) => negb (mantissa_zero lx)
  | Some (JStr s) => match s with [] => false | _ => true end
  | Some (JArr _) | Some (JObj _) => true
  end.

(** [String(n)] for a number: ["0"] for every zero and the lexeme itself
    otherwise, which is Number::toString for integer lexemes of at most 15
    digits; the shortest round-trip form of other lexemes is not modelled. *)
Definition js_num_string (lx : text) : text :=
  if mantissa_zero lx then txt "0" else lx.

(** [String(v)]; Array.prototype.join prints [null] elements as empty. *)
Fixpoint js_string (v : jval) : text :=
  match v with
  | JNull => txt "null"
  | JBool true => txt "true"
  | JBool false => txt "false"
  | JNum lx => js_num_string lx
  | JStr s => s
  | JArr l => join (txt ",") (map (fun e => match e with JNull => [] | _ => js_string e end) l)
  | JObj _ => txt "[object Object]"
  end.

(** [String(v || '')]. *)
Definition js_str_or_empty (v : option jval) : text :=
  match v with
  | Some w => if truthy v then js_string w else []
  | None => []
  end.

Definition is_object_type (v : jval) : bool :=
  match v with JNull | JArr _ | JObj _ => true | _ => false end.

Definition is_string_or_bool (v : option jval) : bool :=
  match v with Some (JStr _) | Some (JBool _) => true | _ => false end.

(** [v.k] for the keys the source reads ([items], [others]). *)
Definition get_prop (v : jval) (k : text) : option jval :=
  match v with JObj fs => assoc k fs | _ => None end.

Fixpoint digits_of (fuel n : nat) (acc : text) : text :=
  match fuel with
  | O => acc
  | S f =>
      let d := ascii_of_nat (48 + n mod 10) in
      if n / 10 =? 0 then d :: acc else digits_of f (n / 10) (d :: acc)
  end.
Definition nat_text (n : nat) : text := digits_of (S n) n [].

Fixpoint text_nat_acc (s : text) (acc : N) : N :=
  match s with
  | [] => acc
  | c :: s' => text_nat_acc s' (10 * acc + (N_of_ascii c - 48))%N
  end.

(** Array index keys: canonical decimal numerals below [2^32 - 1]. *)
Definition is_array_index (k : text) : bool :=
  match k with
  | [] => false
  | c :: r =>
      forallb is_digit k
      && ((match r with [] => true | _ => false end) || negb (c =? "0")%char)
      && (length k <=? 10) && (text_nat_acc k 0 <? 4294967295)%N
  end.

Fixpoint insert_index (k : text) (l : list text) : list text :=
  match l with
  | [] => [k]
  | k' :: l' => if (text_nat_acc k 0 <=? text_nat_acc k' 0)%N then k :: l else k' :: insert_index k l'
  end.

(** [Object.keys] order: array-index keys ascending, then the other keys
    in insertion order. *)
Definition js_keys (ks : list text) : list text :=
  fold_right insert_index [] (filter is_array_index ks)
  ++ filter (fun k => negb (is_array_index k)) ks.

Definition own_keys (v : jval) : list text :=
  match v with
  | JObj fs => js_keys (map fst fs)
  | JArr l => map nat_text (List.seq 0 (length l))
  | _ => []
  end.

(** ** parseEquipmentAlert (Header.tsx, lines 24-376) *)

(** An alert record.  A missing [message] or [details] is the empty text
    (both are only read through [||] and [String]); [createdAt] is the
    time value [new Date(createdAt).getTime()] of a valid timestamp. *)
Record alert := mk_alert {
  a_id : text;
  a_title : text;
  a_message : text;
  a_details : text;
  a_userId : option text;
  a_isRead : bool;
  a_createdAt : Z;
  a_structuredNote : option jval
}.

Inductive item_status := Prepared | NotAvailable | Pending.

Record item := mk_item { it_label : text; it_status : item_status }.

(** The fields of the returned object that the bell reads for the item
    list; [visibleTitle] and [cleaned] are not part of this model. *)
Record parsed := mk_parsed {
  titleRequesterEmail : option text;
  equipmentList : list text;
  othersText : option text;
  needsObj : option jval;
  itemsWithStatus : option (list item)
}.

Definition nonempty (s : text) : bool := match s with [] => false | _ => true end.

(** [a || b] on strings. *)
Definition or_text (a b : text) : text := if nonempty a then a else b.

(** [mapToken] (lines 137-147).  [.replace(/_/g, ' ')] is a map over the characters. *)
Definition underscore_to_space (s : text) : text :=
  map (fun c => if (c =? "_")%char then " "%char else c) s.

Definition trailing_punct_re : re := RCat (plus (RChr (in_chars (txt ".,;")))) REnd.

Definition mapToken (rawToken : text) : option text :=
  let raw := trim (underscore_to_space rawToken) in
  let lower := toLowerCase raw in
  if includes lower (txt "others") then None
  else if text_eqb lower (txt "whiteboard") then Some (txt "Whiteboard & Markers")
  else if text_eqb lower (txt "projector") then Some (txt "Projector")
  else if text_eqb lower (txt "extension cord") || text_eqb lower (txt "extension_cord")
  then Some (txt "Extension Cord")
  else if text_eqb lower (txt "hdmi") then Some (txt "HDMI Cable")
  else if text_eqb lower (txt "extra chairs") || text_eqb lower (txt "extra_chairs")
  then Some (txt "Extra Chairs")
  else Some (trim (replace_all raw trailing_punct_re [])).

(** The tri-state classifier applied to [String(rawVal || '').toLowerCase()]. *)
Definition classify (val : text) : item_status :=
  if text_eqb val (txt "prepared") || text_eqb val (txt "true") || text_eqb val (txt "yes")
  then Prepared
  else if text_eqb val (txt "not available") || text_eqb val (txt "not_available")
          || text_eqb val (txt "false") || text_eqb val (txt "no")
  then NotAvailable
  else Pending.

Definition status_of (rawVal : option jval) : item_status :=
  classify (toLowerCase (js_str_or_empty rawVal)).

(** [mapToken(k) || String(k)] *)
Definition label_of (k : text) : text :=
  match mapToken k with Some l => if nonempty l then l else k | None => k end.

(** [/.*?others[:\s-]*/i] *)
Definition others_marker_re : re :=
  seq [RRep 0 None false dot; lit_i (txt "others");
       star (RChr (fun d => in_chars (txt ":-") d || is_space d))].

(** One call of the [.map] callback shared by the items-array path and the
    legacy parts path: [st] is [othersFromItems] / [othersFromParts]. *)
Definition token_step (st : text) (tok : text) : text * option text :=
  if includes (toLowerCase tok) (txt "others") then
    let trailing := trim (replace_first tok others_marker_re []) in
    ((if nonempty trailing && negb (nonempty st) then trailing else st), None)
  else (st, mapToken tok).

Fixpoint map_tokens (st : text) (toks : list text) : list (option text) * text :=
  match toks with
  | [] => ([], st)
  | t :: ts =>
      let '(st', r) := token_step st t in
      let '(rs, st'') := map_tokens st' ts in (r :: rs, st'')
  end.

(** [.filter(Boolean)] *)
Definition keep_truthy (l : list (option text)) : list text :=
  flat_map (fun o => match o with Some s => if nonempty s then [s] else [] | None => [] end) l.




(** [pairs[k] = v] on an object literal: the [__proto__] setter ignores a
    string value, any other key is an ordinary data property. *)
Definition pairs_assign (ps : list (text * jval)) (k v : text) : list (text * jval) :=
  if text_eqb k (txt "__proto__") then ps else obj_set ps k (JStr v).

Definition items_of_pairs (ps : list (text * jval)) : list item :=
  map (fun k => mk_item (label_of k) (status_of (assoc k ps))) (js_keys (map fst ps)).

Definition not_dq : re := RChr (fun d => negb (d =? c_dquote)%char).

(** The quoted key/value pair pattern of parseQuotedPairs (line 154). *)
Definition quoted_pair_re : re :=
  seq [chr c_dquote; RGrp 1 (plus not_dq); chr c_dquote; star space; chr ":"%char;
       star space; chr c_dquote; RGrp 2 (plus not_dq); chr c_dquote].

Definition parseQuotedPairs (combined : text) : list (text * jval) :=
  fold_left (fun ps '(_, _, c) =>
               match group combined c 1, group combined c 2 with
               | Some k, Some v => pairs_assign ps k v
               | _, _ => ps
               end) (matches combined quoted_pair_re) [].

(** [(prepared|not_available|not available|prepared|true|false|yes|no)] under [i] *)
Definition status_word_re : re :=
  fold_right (fun w r => RAlt (lit_i (txt w)) r) (lit_i (txt "no"))
    ["prepared"; "not_available"; "not available"; "prepared"; "true"; "false"; "yes"]%string.

(** [/([A-Za-z0-9 &]+?)\s*[:\-]\s*(...)/gi] *)
Definition inline_re : re :=
  seq [RGrp 1 (RRep 1 None false (RChr (fun d => is_alnum d || in_chars (txt " &") d)));
       star space; RChr (in_chars (txt ":-")); star space; RGrp 2 status_word_re].

(** [/•|‣|◦|\*|\n/]: only the last two alternatives are ASCII. *)
Definition bullets_re : re := RAlt (chr "*"%char) (chr c_nl).

Definition parseInlineLabelStatus (combined raw : text) : list (text * jval) :=
  let t := or_text combined (or_text raw []) in
  let ps := fold_left (fun ps '(_, _, c) =>
               match group t c 1, group t c 2 with
               | Some k, Some v =>
                   let key := trim k in
                   if nonempty key then pairs_assign ps key (trim v) else ps
               | _, _ => ps
               end) (matches t inline_re) [] in
  match js_keys (map fst ps) with
  | [] =>
      fold_left (fun ps part =>
                   match search part inline_re 0 with
                   | Some (_, _, c) =>
                       match group part c 1, group part c 2 with
                       | Some k, Some v => pairs_assign ps (trim k) (trim v)
                       | _, _ => ps
                       end
                   | None => ps
                   end) (split_re t bullets_re) ps
  | _ => ps
  end.

(** [/[—–-]\s*([A-Za-z0-9._%+-]+@[A-Za-z0-9.-]+\.[A-Za-z]{2,})\s*$/] (ASCII dash only) *)
Definition title_email_re : re :=
  seq [chr "-"%char; star space; RGrp 1 email_re; star space; REnd].

Definition title_requester_email (title : text) : option text :=
  match match_group title title_email_re 1 with
  | Some e => if nonempty e then Some e else None
  | None => None
  end.

(** [/Needs:\s*(\{[\s\S]*\})/i] *)
Definition needs_re : re :=
  seq [lit_i (txt "needs:"); star space; RGrp 1 (seq [chr c_lbrace; star any; chr c_rbrace])].

(** The quoted key/value fragment pattern of line 122, [/}\s*\{/g] and [/[{}]/g]. *)
Definition quoted_fragment_re : re :=
  seq [chr c_dquote; plus not_dq; chr c_dquote; star space; chr ":"%char; star space;
       chr c_dquote; plus not_dq; chr c_dquote; star space; opt (chr ","%char)].
Definition close_open_re : re := seq [chr c_rbrace; star space; chr c_lbrace].
Definition brace_re : re := RChr (in_chars [c_lbrace; c_rbrace]).

(** [/Requested equipment:\s*([^\[]+)/i], [/[,;]+/] and the [Others?:] pattern
    of line 266, which captures the rest of the line up to the end of input. *)
Definition requested_re : re :=
  seq [lit_i (txt "requested equipment:"); star space;
       RGrp 1 (plus (RChr (fun d => negb (d =? "[")%char)))].
Definition comma_semi_re : re := plus (RChr (in_chars (txt ",;"))).
Definition others_tail_re : re :=
  seq [lit_i (txt "other"); opt (chr_i "s"%char); chr ":"%char; star space;
       RGrp 1 (star dot); REnd].

(** The test of the top-level pass (line 101). *)
Definition qualifies (v : jval) : bool :=
  truthy (Some v)
  && (truthy (get_prop v (txt "items")) || truthy (get_prop v (txt "others")) || is_object_type v).

Fixpoint first_qualifying (blocks : list text) : option jval :=
  match blocks with
  | [] => None
  | b :: bs =>
      match JSON_parse b with
      | Some v => if qualifies v then Some v else first_qualifying bs
      | None => first_qualifying bs
      end
  end.

(** The top-level pass (lines 95-112), entered with [needsObj] falsy. *)
Definition top_level_pass (prev : option jval) (raw : text) : option jval * text :=
  let blocks := brace_segments raw in
  (match first_qualifying blocks with Some v => Some v | None => prev end,
   fold_left (fun r b => replace_str r b []) blocks raw).

(** The search for a needs object (lines 45-128): [needsObj] and the
    stripped [raw]. *)
Definition extract_needs (note : option jval) (raw0 : text) : option jval * text :=
  let needs0 := if truthy note then note else None in
  let '(n1, r1) :=
    match extractJsonAroundKey raw0 (jq "`items`") with
    | Some blk =>
        if nonempty blk then
          match JSON_parse blk with
          | Some v => (Some v, replace_str raw0 blk [])
          | None => (None, raw0)
          end
        else (needs0, raw0)
    | None => (needs0, raw0)
    end in
  let '(n2, r2) := if truthy n1 then (n1, r1) else top_level_pass n1 r1 in
  let '(n3, r3) :=
    if truthy n2 then (n2, r2)
    else match match_group r2 needs_re 1 with
         | Some g =>
             if nonempty g then
               match JSON_parse g with
               | Some v => (Some v, replace_str r2 g [])
               | None => (None, r2)
               end
             else (n2, r2)
         | None => (n2, r2)
         end in
  (n3, replace_all (replace_all (replace_all r3 quoted_fragment_re []) close_open_re (txt " "))
                   brace_re []).

Definition nonempty_list {A} (l : list A) : bool := match l with [] => false | _ => true end.

(** [v[k]] for a key of [Object.keys(v)]. *)
Definition own_get (v : jval) (k : text) : option jval :=
  match v with
  | JObj fs => assoc k fs
  | JArr l => nth_error l (N.to_nat (text_nat_acc k 0))
  | _ => None
  end.

(** Lines 191-199: an object without [items] whose values are all strings
    or booleans is taken as the items map. *)
Definition normalize_needs (n : jval) : jval :=
  if negb (truthy (get_prop n (txt "items"))) && is_object_type n then
    let ks := own_keys n in
    if nonempty_list ks && forallb (fun k => is_string_or_bool (own_get n k)) ks
    then JObj [(txt "items", n)] else n
  else n.

(** The items-array path (lines 201-213): [equipmentList] and [othersText]. *)
Definition from_items_array (n : jval) (l : list jval) : list text * option text :=
  let '(mapped, othersFromItems) := map_tokens [] (map (fun v => js_str_or_empty (Some v)) l) in
  (keep_truthy mapped,
   if nonempty othersFromItems then Some othersFromItems
   else match get_prop n (txt "others") with
        | Some o => if truthy (Some o) then Some (trim (js_string o)) else None
        | None => None
        end).

(** The legacy free-text path (lines 253-267). *)
Definition from_requested (g : text) : list text * option text :=
  let parts := filter nonempty (map trim (split_re g comma_semi_re)) in
  let '(mapped, othersFromParts) := map_tokens [] parts in
  (keep_truthy mapped,
   if nonempty othersFromParts then Some othersFromParts
   else match match_group g others_tail_re 1 with
        | Some e => if nonempty e then Some (trim e) else None
        | None => None
        end).

Definition empty_items (its : option (list item)) : bool :=
  match its with None | Some [] => true | _ => false end.

Definition and_others : text := txt "and others".

Definition parseEquipmentAlert (a : alert) : parsed :=
  let raw0 := unescape (or_text (a_message a) (a_details a)) in
  let combined := a_message a ++ txt " " ++ a_details a in
  let email := title_requester_email (a_title a) in
  let '(needs, raw) := extract_needs (a_structuredNote a) raw0 in
  let eqMatch := match_group raw requested_re 1 in
  let legacy :=
    match eqMatch with
    | Some g =>
        if nonempty g then let '(l, o) := from_requested g in (l, o, None)
        else ([], None, None)
    | None => ([], None, None)
    end in
  let '(eqList, others, its) :=
    match needs with
    | Some n0 =>
      if truthy needs then
        let n := normalize_needs n0 in
        let '(eqList, others) :=
          match get_prop n (txt "items") with
          | Some (JArr l) => from_items_array n l
          | _ => ([], None)
          end in
        let its1 :=
          match get_prop n (txt "items") with
          | Some (JObj fs) =>
              Some (map (fun k => mk_item (label_of k) (status_of (assoc k fs)))
                        (js_keys (map fst fs)))
          | _ => None
          end in
        let its2 :=
          match its1 with
          | None =>
              let ps := parseQuotedPairs combined in
              if nonempty_list (js_keys (map fst ps)) then Some (items_of_pairs ps) else None
          | Some _ => its1
          end in
        let its3 :=
          if empty_items its2 then
            let ps := parseInlineLabelStatus combined raw in
            if nonempty_list (js_keys (map fst ps)) then Some (items_of_pairs ps) else its2
          else its2 in
        (eqList, others, its3)
      else legacy
    | None => legacy
    end in
  let eqList :=
    match others with
    | Some o =>
        if nonempty o && negb (existsb (text_eqb and_others) eqList)
        then eqList ++ [and_others] else eqList
    | None => eqList
    end in
  (* the returned [needsObj] is the object after the normalization of line 195 *)
  let needsOut :=
    match needs with
    | Some n0 => if truthy needs then Some (normalize_needs n0) else needs
    | None => None
    end in
  mk_parsed email eqList others needsOut its.

(** ** Exceptions in parseEquipmentAlert

    An exception-aware embedding: [None] is an exception leaving the
    function.  Lines 45-128 catch everything (the outer [catch] sets
    [needsObj = null]), so the failures of [JSON.parse], modelled by the
    [None] results of [JSON_parse] in [extract_needs], never escape.  The
    regexes built with [new RegExp] (lines 322 and 342-352) and the other
    steps of lines 276-373 sit in [try] blocks and shape only
    [visibleTitle] and [cleaned].  Outside every [try] run the needs branch
    of lines 191-213 and the legacy branch of lines 253-267; of their
    operations only [String(v)] on a value read out of the needs object can
    throw.  The items-map step of lines 216-226 is inside a [try] whose
    [catch] sets [itemsWithStatus = null]. *)

(** [String(v)] on a JSON value runs ToPrimitive with hint string: the
    value's [toString], then its [valueOf].  An object parsed from JSON with
    an own [toString] key holds a data value there, which is not callable,
    and the inherited [valueOf] returns the object itself, so a TypeError is
    thrown.  An array prints through [join], which converts each element
    other than [null] the same way. *)
Fixpoint to_string_throws (v : jval) : bool :=
  match v with
  | JArr l => existsb to_string_throws l
  | JObj fs => existsb (text_eqb (txt "toString")) (map fst fs)
  | _ => false
  end.

Definition js_String (v : jval) : option text :=
  if to_string_throws v then None else Some (js_string v).

(** [String(v || '')] *)
Definition js_str_or_empty_exc (v : option jval) : option text :=
  match v with
  | Some w => if truthy v then js_String w else Some []
  | None => Some []
  end.

(** [l.map(f)] where [f] may throw: the first exception aborts the map. *)
Fixpoint map_exc {A B} (f : A -> option B) (l : list A) : option (list B) :=
  match l with
  | [] => Some []
  | x :: r =>
      match f x with
      | Some y => match map_exc f r with Some ys => Some (y :: ys) | None => None end
      | None => None
      end
  end.

(** Lines 201-213: [String(s || '')] on each element, then
    [String(needsObj.others)] when no token gave a trailing text. *)
Definition from_items_array_exc (n : jval) (l : list jval) : option (list text * option text) :=
  match map_exc (fun v => js_str_or_empty_exc (Some v)) l with
  | None => None
  | Some toks =>
      let '(mapped, othersFromItems) := map_tokens [] toks in
      if nonempty othersFromItems then Some (keep_truthy mapped, Some othersFromItems)
      else match get_prop n (txt "others") with
           | Some o =>
               if truthy (Some o) then
                 match js_String o with
                 | Some so => Some (keep_truthy mapped, Some (trim so))
                 | None => None
                 end
               else Some (keep_truthy mapped, None)
           | None => Some (keep_truthy mapped, None)
           end
  end.

(** Lines 216-226: the items map, inside [try ... catch (e) { itemsWithStatus = null; }]. *)
Definition items_map_exc (n : jval) : option (list item) :=
  match get_prop n (txt "items") with
  | Some (JObj fs) =>
      match map_exc (fun k =>
               match js_str_or_empty_exc (assoc k fs) with
               | Some v => Some (mk_item (label_of k) (classify (toLowerCase v)))
               | None => None
               end) (js_keys (map fst fs)) with
      | Some its => Some its
      | None => None
      end
  | _ => None
  end.

Definition parseEquipmentAlert_exc (a : alert) : option parsed :=
  let raw0 := unescape (or_text (a_message a) (a_details a)) in
  let combined := a_message a ++ txt " " ++ a_details a in
  let email := title_requester_email (a_title a) in
  let '(needs, raw) := extract_needs (a_structuredNote a) raw0 in
  let eqMatch := match_group raw requested_re 1 in
  let legacy :=
    match eqMatch with
    | Some g =>
        if nonempty g then let '(l, o) := from_requested g in Some (l, o, None)
        else Some ([], None, None)
    | None => Some ([], None, None)
    end in
  let body :=
    match needs with
    | Some n0 =>
      if truthy needs then
        let n := normalize_needs n0 in
        let arr :=
          match get_prop n (txt "items") with
          | Some (JArr l) => from_items_array_exc n l
          | _ => Some ([], None)
          end in
        match arr with
        | None => None
        | Some (eqList, others) =>
            let its1 := items_map_exc n in
            let its2 :=
              match its1 with
              | None =>
                  let ps := parseQuotedPairs combined in
                  if nonempty_list (js_keys (map fst ps)) then Some (items_of_pairs ps) else None
              | Some _ => its1
              end in
            let its3 :=
              if empty_items its2 then
                let ps := parseInlineLabelStatus combined raw in
                if nonempty_list (js_keys (map fst ps)) then Some (items_of_pairs ps) else its2
              else its2 in
            Some (eqList, others, its3)
        end
      else legacy
    | None => legacy
    end in
  match body with
  | None => None
  | Some (eqList, others, its) =>
      let eqList :=
        match others with
        | Some o =>
            if nonempty o && negb (existsb (text_eqb and_others) eqList)
            then eqList ++ [and_others] else eqList
        | None => eqList
        end in
      let needsOut :=
        match needs with
        | Some n0 => if truthy needs then Some (normalize_needs n0) else needs
        | None => None
        end in
      Some (mk_parsed email eqList others needsOut its)
  end.

(** ** The reconciler [alertsData] (Header.tsx, lines 625-671) *)

Record viewer := mk_viewer { u_id : text; u_email : text; u_role : text }.

Definition is_admin (user : option viewer) : bool :=
  match user with Some u => text_eqb (u_role u) (txt "admin") | None => false end.

(** [String(a.message || a.details || '').split('\n')[0].trim()] *)
Fixpoint before_nl (s : text) : text :=
  match s with
  | [] => []
  | c :: s' => if (c =? c_nl)%char then [] else c :: before_nl s'
  end.

Definition first_line (a : alert) : text := trim (before_nl (or_text (a_message a) (a_details a))).

(** [`${a.title || ''}||${firstLine}`] *)
Definition dedup_key (a : alert) : text := a_title a ++ txt "||" ++ first_line a.

Fixpoint lookup_group (k : text) (g : list (text * alert)) : option alert :=
  match g with
  | [] => None
  | (k', a) :: g' => if text_eqb k k' then Some a else lookup_group k g'
  end.

(** [groups[key] = a] on a key already present: the key keeps its place. *)
Fixpoint replace_group (k : text) (a : alert) (g : list (text * alert)) : list (text * alert) :=
  match g with
  | [] => []
  | (k', b) :: g' => if text_eqb k k' then (k', a) :: g' else (k', b) :: replace_group k a g'
  end.

(** One iteration of the grouping loop. *)
Definition group_step (g : list (text * alert)) (a : alert) : list (text * alert) :=
  let key := dedup_key a in
  match lookup_group key g with
  | None => g ++ [(key, a)]
  | Some existing =>
      if (a_createdAt existing <? a_createdAt a)%Z then replace_group key a g else g
  end.

Definition groups_of (base : list alert) : list (text * alert) := fold_left group_step base [].

(** Array.prototype.sort is stable, so [sort((x, y) => y.t - x.t)] orders by
    decreasing [createdAt] and keeps ties in their order. *)
Fixpoint insert_desc (x : alert) (l : list alert) : list alert :=
  match l with
  | [] => [x]
  | y :: l' => if (a_createdAt y <? a_createdAt x)%Z then x :: l else y :: insert_desc x l'
  end.

Definition sort_desc (l : list alert) : list alert := fold_left (fun acc x => insert_desc x acc) l [].

(** [Object.values(groups)]: no key contains only digits (each has [||]),
    so the values come in insertion order. *)
Definition dedupe (base : list alert) : list alert := sort_desc (map snd (groups_of base)).

(** The merged feed of a non-admin viewer before deduplication. *)
Definition alerts_base (user : option viewer) (userAlerts ownerAdminAlerts : list alert)
    : list alert :=
  let base := match user with
              | Some u => filter (fun a => match a_userId a with
                                           | Some i => text_eqb i (u_id u)
                                           | None => false end) userAlerts
              | None => []
              end in
  let ownerEmail := toLowerCase (match user with Some u => u_email u | None => [] end) in
  if nonempty_list ownerAdminAlerts && nonempty ownerEmail then
    let relevant := filter (fun a =>
          let hay := toLowerCase (or_text (a_message a) (or_text (a_details a) (a_title a))) in
          includes hay ownerEmail
          || match titleRequesterEmail (parseEquipmentAlert a) with
             | Some e => nonempty e && text_eqb (toLowerCase e) ownerEmail
             | None => false
             end) ownerAdminAlerts in
    let existingIds := map a_id base in
    base ++ filter (fun r => negb (existsb (text_eqb (a_id r)) existingIds)) relevant
  else base.

Definition alertsData (user : option viewer) (adminAlerts userAlerts ownerAdminAlerts : list alert)
    : list alert :=
  if is_admin user then adminAlerts
  else dedupe (alerts_base user userAlerts ownerAdminAlerts).

(** ** The bell's item list (Header.tsx, lines 999-1100) *)



(** ** Hidden alerts (Header.tsx, lines 690-718)

    The ids hidden in the bell are a [Set] kept in React state and saved
    in localStorage under [orbit:hiddenAlerts:<user id>] as
    [JSON.stringify(Array.from(set))].  A [Set] is modelled by the list of
    its elements in insertion order. *)

(** [JSON.stringify] of a string (QuoteJSONString): the short escapes
    first, then [\u00xx] with lowercase hex digits for the other control
    characters; every other code unit is copied. *)
Definition hex_digit (n : nat) : ascii :=
  if n <? 10 then ascii_of_nat (48 + n) else ascii_of_nat (87 + n).

Definition quote_char (c : ascii) : text :=
  let n := nat_of_ascii c in
  if n =? 8 then [c_bslash; "b"%char]
  else if n =? 9 then [c_bslash; "t"%char]
  else if n =? 10 then [c_bslash; "n"%char]
  else if n =? 12 then [c_bslash; "f"%char]
  else if n =? 13 then [c_bslash; "r"%char]
  else if n =? 34 then [c_bslash; c_dquote]
  else if n =? 92 then [c_bslash; c_bslash]
  else if n <? 32 then [c_bslash; "u"%char; "0"%char; "0"%char; hex_digit (n / 16); hex_digit (n mod 16)]
  else [c].

Definition stringify_string (s : text) : text :=
  c_dquote :: flat_map quote_char s ++ [c_dquote].

(** [JSON.stringify] of an array of strings. *)
Definition stringify_strings (l : list text) : text :=
  match l with
  | [] => txt "[]"
  | x :: xs =>
      "["%char :: stringify_string x
        ++ flat_map (fun y => ","%char :: stringify_string y) xs ++ ["]"%char]
  end.

(** localStorage as an association list; [setItem] replaces in place. *)
Definition storage := list (text * text).

Fixpoint getItem (st : storage) (k : text) : option text :=
  match st with
  | [] => None
  | (k', v) :: st' => if text_eqb k k' then Some v else getItem st' k
  end.

Fixpoint set_existing (st : storage) (k v : text) : storage :=
  match st with
  | [] => []
  | (k', v') :: st' => if text_eqb k k' then (k', v) :: st' else (k', v') :: set_existing st' k v
  end.

Definition setItem (st : storage) (k v : text) : storage :=
  match getItem st k with Some _ => set_existing st k v | None => st ++ [(k, v)] end.

(** [hiddenStorageKey] *)
Definition hiddenStorageKey (user : option viewer) : option text :=
  match user with Some u => Some (txt "orbit:hiddenAlerts:" ++ u_id u) | None => None end.

(** [persistHiddenIds(nextSet)] *)
Definition persistHiddenIds (user : option viewer) (next : list text) (st : storage) : storage :=
  match hiddenStorageKey user with
  | Some k => setItem st k (stringify_strings next)
  | None => st
  end.

(** [new Set(prev).add(id)] for a set of strings. *)
Definition set_add_text (s : list text) (x : text) : list text :=
  if existsb (text_eqb x) s then s else s ++ [x].

(** [hideAlertInBell(id)]: the next hidden set, saved before it is returned. *)
Definition hideAlertInBell (user : option viewer) (prev : list text) (id : text) (st : storage)
    : list text * storage :=
  let next := set_add_text prev id in (next, persistHiddenIds user next st).

Section LoadHidden.
(** SameValueZero on two number values, given by their lexemes; the
    statements below hold whatever it is. *)
Variable same_number : text -> text -> bool.

(** SameValueZero on parsed JSON values: each parsed array or object is a
    fresh object, so none equals another. *)
Definition same_value_zero (a b : jval) : bool :=
  match a, b with
  | JNull, JNull => true
  | JBool x, JBool y => Bool.eqb x y
  | JNum x, JNum y => same_number x y
  | JStr x, JStr y => text_eqb x y
  | _, _ => false
  end.

(** [new Set(arr)] *)
Definition set_of_array (arr : list jval) : list jval :=
  fold_left (fun s x => if existsb (same_value_zero x) s then s else s ++ [x]) arr [].

(** The effect that loads the hidden ids: [Some set] where it calls
    [setHiddenAlertIds(new Set(arr))], [None] where it returns early or a
    parse error is caught. *)
Definition loadHiddenIds (user : option viewer) (st : storage) : option (list jval) :=
  match hiddenStorageKey user with
  | None => None
  | Some k =>
      match getItem st k with
      | Some raw =>
          if nonempty raw then
            match JSON_parse raw with
            | Some (JArr arr) => Some (set_of_array arr)
            | _ => None
            end
          else None
      | None => None
      end
  end.
End LoadHidden.

(** ** Unread badge and the mark-as-read mutation (Header.tsx, lines 566-625 and 687) *)

Definition is_hidden (hidden : list text) (a : alert) : bool := existsb (text_eqb (a_id a)) hidden.

(** [unreadCount]: the alerts of the feed that are unread and not hidden. *)
Definition unreadCount (alertsData : list alert) (hidden : list text) : nat :=
  length (filter (fun a => negb (a_isRead a) && negb (is_hidden hidden a)) alertsData).

(** [{ ...a, isRead: true }] *)
Definition set_read (a : alert) : alert :=
  mk_alert (a_id a) (a_title a) (a_message a) (a_details a) (a_userId a) true
           (a_createdAt a) (a_structuredNote a).

(** [markReadIn(data)]: a query cache is an array of alerts or is empty
    ([undefined]), which is returned as it is. *)
Definition markReadIn (alertId : text) (data : option (list alert)) : option (list alert) :=
  match data with
  | Some l => Some (map (fun a => if text_eqb (a_id a) alertId then set_read a else a) l)
  | None => None
  end.

(** The two alert caches the header reads and the [pendingMarkIds] set. *)
Record bell_state := mk_bell {
  cache_admin : option (list alert);   (* ['/api/admin/alerts'] *)
  cache_user : option (list alert);    (* ['/api/notifications'] *)
  pendingMarkIds : list text
}.

Record mark_context := mk_ctx {
  ctx_prevAdmin : option (list alert);
  ctx_prevUser : option (list alert);
  ctx_alertId : text
}.

(** [new Set(prev).delete(id)] *)
Definition set_delete_text (s : list text) (x : text) : list text :=
  filter (fun y => negb (text_eqb y x)) s.

(** [onMutate(alertId)] *)
Definition onMutate (isAdmin : bool) (alertId : text) (st : bell_state) : bell_state * mark_context :=
  let pending := set_add_text (pendingMarkIds st) alertId in
  let prevAdmin := if isAdmin then cache_admin st else None in
  let prevUser := if isAdmin then None else cache_user st in
  let st' := if isAdmin
             then mk_bell (markReadIn alertId (cache_admin st)) (cache_user st) pending
             else mk_bell (cache_admin st) (markReadIn alertId (cache_user st)) pending in
  (st', mk_ctx prevAdmin prevUser alertId).

(** [onError(_err, _alertId, context)]: an array, even an empty one, is truthy. *)
Definition onError (isAdmin : bool) (ctx : mark_context) (st : bell_state) : bell_state :=
  let ca := if isAdmin then match ctx_prevAdmin ctx with Some l => Some l | None => cache_admin st end
            else cache_admin st in
  let cu := if negb isAdmin then match ctx_prevUser ctx with Some l => Some l | None => cache_user st end
            else cache_user st in
  let pending := if nonempty (ctx_alertId ctx)
                 then set_delete_text (pendingMarkIds st) (ctx_alertId ctx)
                 else pendingMarkIds st in
  mk_bell ca cu pending.

(** [onSettled(_data, _err, alertId)]: the invalidated caches are only
    refetched later, so they stay as they are here. *)
Definition onSettled (alertId : text) (st : bell_state) : bell_state :=
  let pending := if nonempty alertId then set_delete_text (pendingMarkIds st) alertId
                 else pendingMarkIds st in
  mk_bell (cache_admin st) (cache_user st) pending.

(** The cache of alerts an admin or a user sees: [data = []] when empty. *)
Definition cache_list (c : option (list alert)) : list alert :=
  match c with Some l => l | None => [] end.

(** [a] is no older than [b]: the order [sort_desc] produces. *)
Definition newer_first (a b : alert) : Prop := (a_createdAt b <= a_createdAt a)%Z.

(** The alerts listed in the open bell (lines 944-947):
    [alertsData.slice().sort(newest first).filter(not hidden).slice(0, 5)]. *)
Definition bell_list (alertsData : list alert) (hidden : list text) : list alert :=
  firstn 5 (filter (fun a => negb (is_hidden hidden a)) (sort_desc alertsData)).

(** ** Header search (Header.tsx, lines 465-509)

    The facility and booking lists are the JSON arrays the API returned;
    their elements are arbitrary JSON values.  Reading a property of
    [null] throws a TypeError; the other non-objects have none of the
    properties read here, so [get_prop] gives [undefined] for them. *)














Section BookingSearch.
(** SameValueZero on two number values, as in [LoadHidden]. *)
Variable same_number : text -> text -> bool.





End BookingSearch.

(** ** UserEmailDisplay (UserEmailDisplay.tsx, lines 9-28)

    The text the component renders, from the query state; [user] is the
    parsed response ([None] while there is none).  [None] where rendering
    throws: [user.email.trim] is not a function on a truthy non-string. *)
Inductive query_state := Loading | Errored | Settled.

Definition user_email_text (userId : text) (qs : query_state) (user : option jval) : option text :=
  match qs with
  | Loading => Some (txt "Loading email...")
  | Errored => Some (txt "Unknown User (ID: " ++ userId ++ txt ")")
  | Settled =>
      if negb (truthy user) then Some (txt "Unknown User (ID: " ++ userId ++ txt ")")
      else
        let email := match user with Some u => get_prop u (txt "email") | None => None end in
        let fallback := txt "Email Not Available (ID: " ++ userId ++ txt ")" in
        if negb (truthy email) then Some fallback
        else match email with
             | Some (JStr e) => if nonempty (trim e) then Some e else Some fallback
             | _ => None
             end
  end.

(** ** Sample feeds *)

Definition viewer_admin : option viewer := Some (mk_viewer (txt "a1") (txt "root@x.com") (txt "admin")).

(** Records of one user that share their title and first message line. *)
Definition sample_alert (id : string) (t : Z) : alert :=
  mk_alert (txt id) (txt "Booking approved") (txt "Room A at 9") [] (Some (txt "u1")) false t None.

(** An alert whose message is [m]. *)
Definition msg_alert (m : text) : alert :=
  mk_alert (txt "n1") (txt "Equipment update") m [] (Some (txt "u1")) false 0 None.


Definition alert_old : alert := sample_alert "1" 100.
Definition alert_new : alert := sample_alert "2" 200.


(** * Statements used by the properties *)

(** The spec's reading of [extractAround], stated over indices. *)
Definition occurs_at (key t : text) (i : nat) : Prop :=
  i <= length t /\ firstn (length key) (skipn i t) = key.

Definition first_occurrence (key t : text) (idx : nat) : Prop :=
  occurs_at key t idx /\ forall i, i < idx -> ~ occurs_at key t i.

(** The nearest ['{'] at or after [idx], else the nearest one before it. *)
Definition nearest_open (t : text) (idx o : nat) : Prop :=
  (idx <= o /\ nth_error t o = Some c_lbrace
   /\ forall k, idx <= k < o -> nth_error t k <> Some c_lbrace)
  \/ ((forall k, idx <= k -> nth_error t k <> Some c_lbrace)
      /\ o < idx /\ nth_error t o = Some c_lbrace
      /\ forall k, o < k < idx -> nth_error t k <> Some c_lbrace).

Definition brace_delta (c : ascii) : Z :=
  if (c =? c_lbrace)%char then 1%Z else if (c =? c_rbrace)%char then (-1)%Z else 0%Z.

Fixpoint balance (s : text) : Z :=
  match s with [] => 0%Z | c :: s' => (brace_delta c + balance s')%Z end.

(** [j] closes the block opened at [o]: the first index at which the
    brace depth of [t[o..j]] is back to 0. *)
Definition matching_close (t : text) (o j : nat) : Prop :=
  o <= j < length t /\ balance (slice t o (S j)) = 0%Z
  /\ forall j', o <= j' < j -> balance (slice t o (S j')) <> 0%Z.

(** The closing index found by the loop, from absolute index [i] and depth [d]. *)
Definition close_spec (s : text) (i : nat) (d : Z) (j : nat) : Prop :=
  exists n, j = i + n /\ n < length s /\ (d + balance (firstn (S n) s) = 0)%Z
            /\ forall m, m < n -> (d + balance (firstn (S m) s) <> 0)%Z.


(** The first block that [JSON.parse] accepts. *)
Fixpoint first_parsing (blocks : list text) : option jval :=
  match blocks with
  | [] => None
  | b :: bs => match JSON_parse b with Some v => Some v | None => first_parsing bs end
  end.

Definition open_seg (cur : option text) : Prop :=
  match cur with
  | None => True
  | Some acc => exists m, acc = rev m ++ [c_lbrace] /\ ~ In c_rbrace m
  end.

(** * Properties *)

(** ** Evaluations of the embedding *)

Example extract_nested :
  extractJsonAroundKey (jq "x {`k`:{`a`:{`b`:1}}} y") (jq "`k`")
  = Some (jq "{`a`:{`b`:1}}").
Proof. reflexivity. Qed.

Example brace_segments_agree_1 :
  let s := jq "a {`x`:{`y`:1}} b {c} {d" in
  brace_segments s = match_g s lazy_block_re.
Proof. vm_compute. reflexivity. Qed.

Example brace_segments_agree_2 :
  let s := jq "{{}}}{ {}{" in
  brace_segments s = match_g s lazy_block_re.
Proof. vm_compute. reflexivity. Qed.

Example JSON_parse_nested :
  JSON_parse (jq " {`a`:{`b`:[1,true,null,-2.5e3]},`a`:`x`} ")
  = Some (JObj [(txt "a", JStr (txt "x"))]).
Proof. vm_compute. reflexivity. Qed.

Example JSON_parse_cut :
  JSON_parse (jq "{`a`:{`b`:1}") = None.
Proof. vm_compute. reflexivity. Qed.

(** ** The brace-depth extractor *)

Lemma prefixb_firstn (p s : text) : prefixb p s = true <-> firstn (length p) s = p.
Proof.
  revert s; induction p as [|c p IH]; intros [|d s]; simpl.
  - tauto.
  - tauto.
  - split; discriminate.
  - rewrite andb_true_iff, IH.
    destruct (Ascii.eqb_spec c d) as [->|Hne]; split.
    + intros [_ H]; now rewrite H.
    + intros H; injection H; auto.
    + intros [H _]; discriminate.
    + intros H; injection H; intros _ E; congruence.
Qed.

Lemma occurs_at_cons (key : text) (c : ascii) (s : text) (m : nat) :
  occurs_at key (c :: s) (S m) <-> occurs_at key s m.
Proof. unfold occurs_at; simpl; split; intros [H1 H2]; split; auto; lia. Qed.

Lemma find_from_some (key s : text) (i r : nat) :
  find_from key s i = Some r <->
  i <= r /\ occurs_at key s (r - i) /\ (forall m, m < r - i -> ~ occurs_at key s m).
Proof.
  revert i; induction s as [|c s IH]; intros i; cbn [find_from].
  - destruct (prefixb key []) eqn:E.
    + split.
      * intros H; injection H as <-. rewrite Nat.sub_diag.
        refine (conj (le_n _) (conj (conj (le_0_n _) _) _)).
        -- apply prefixb_firstn in E; exact E.
        -- intros m Hm; lia.
      * intros [H1 [[H2 _] _]]. simpl in H2. f_equal; lia.
    + split; [discriminate|]. intros [_ [[H1 H2] _]].
      simpl in H1. assert (r - i = 0) as Z0 by lia. rewrite Z0 in H2.
      apply (proj2 (prefixb_firstn key [])) in H2. congruence.
  - destruct (prefixb key (c :: s)) eqn:E.
    + split.
      * intros H; injection H as <-. rewrite Nat.sub_diag.
        refine (conj (le_n _) (conj (conj (le_0_n _) _) _)).
        -- apply prefixb_firstn in E; exact E.
        -- intros m Hm; lia.
      * intros [H1 [H2 H3]].
        destruct (r - i) eqn:D.
        -- f_equal; lia.
        -- exfalso. apply (H3 0); [lia|]. split; [simpl; lia|].
           apply prefixb_firstn in E; exact E.
    + rewrite IH. split.
      * intros [H1 [H2 H3]].
        replace (r - i) with (S (r - S i)) by lia.
        split; [lia|]. split.
        -- apply occurs_at_cons; exact H2.
        -- intros [|m] Hm Hocc.
           ++ destruct Hocc as [_ Hf]. apply (proj2 (prefixb_firstn key (c :: s))) in Hf. congruence.
           ++ apply (H3 m); [lia|]. apply occurs_at_cons in Hocc; exact Hocc.
      * intros [H1 [H2 H3]].
        destruct (r - i) as [|n] eqn:D.
        -- exfalso. destruct H2 as [_ Hf]. simpl in Hf.
           apply (proj2 (prefixb_firstn key (c :: s))) in Hf. congruence.
        -- replace (r - S i) with n by lia.
           split; [lia|]. split.
           ++ apply occurs_at_cons in H2; exact H2.
           ++ intros m Hm Hocc. apply (H3 (S m)); [lia|]. apply occurs_at_cons; exact Hocc.
Qed.

Lemma find_from_none (key s : text) (i : nat) :
  find_from key s i = None <-> forall m, ~ occurs_at key s m.
Proof.
  revert i; induction s as [|c s IH]; intros i; simpl.
  - destruct (prefixb key []) eqn:E; split.
    + discriminate.
    + intros H. exfalso. apply (H 0). split; [simpl; lia|].
      apply prefixb_firstn in E; exact E.
    + intros _ m [H1 H2]. simpl in H1. assert (m = 0) as -> by lia.
      simpl in H2. apply (proj2 (prefixb_firstn key [])) in H2. congruence.
    + reflexivity.
  - destruct (prefixb key (c :: s)) eqn:E; split.
    + discriminate.
    + intros H. exfalso. apply (H 0). split; [simpl; lia|].
      apply prefixb_firstn in E; exact E.
    + rewrite IH. intros H [|m] Hocc.
      * destruct Hocc as [_ Hf]. simpl in Hf.
        apply (proj2 (prefixb_firstn key (c :: s))) in Hf. congruence.
      * apply (H m). apply occurs_at_cons in Hocc; exact Hocc.
    + rewrite IH. intros H m Hocc. apply (H (S m)). apply occurs_at_cons; exact Hocc.
Qed.

Lemma occurs_at_char (t : text) (c : ascii) (k : nat) :
  occurs_at [c] t k <-> nth_error t k = Some c.
Proof.
  unfold occurs_at. revert k; induction t as [|d t IH]; intros [|k]; simpl.
  - split; [intros [_ H]; discriminate | discriminate].
  - split; [intros [H _]; lia | discriminate].
  - split; [intros [_ H]; injection H; intros ->; reflexivity | intros H; injection H; intros ->; split; [lia|reflexivity]].
  - rewrite <- IH. split; intros [H1 H2]; split; auto; lia.
Qed.

Lemma skipn_nth_error (t : text) (from m : nat) :
  nth_error (skipn from t) m = nth_error t (from + m).
Proof.
  revert from; induction t as [|d t IH]; intros [|from]; simpl; auto.
  - destruct m; reflexivity.
Qed.

Lemma occurs_char_skipn (t : text) (c : ascii) (from m : nat) :
  occurs_at [c] (skipn from t) m <-> nth_error t (from + m) = Some c.
Proof. rewrite occurs_at_char, skipn_nth_error. reflexivity. Qed.

Lemma indexOf_char_some (t : text) (c : ascii) (from o : nat) :
  indexOf t [c] from = Some o <->
  from <= o /\ nth_error t o = Some c /\ forall k, from <= k < o -> nth_error t k <> Some c.
Proof.
  unfold indexOf. rewrite find_from_some. split.
  - intros [H1 [H2 H3]]. apply occurs_char_skipn in H2.
    replace (from + (o - from)) with o in H2 by lia.
    split; [lia|]. split; [exact H2|].
    intros k Hk Hnth. apply (H3 (k - from)); [lia|].
    apply occurs_char_skipn. replace (from + (k - from)) with k by lia. exact Hnth.
  - intros [H1 [H2 H3]]. split; [lia|]. split.
    + apply occurs_char_skipn. replace (from + (o - from)) with o by lia. exact H2.
    + intros m Hm Hocc. apply occurs_char_skipn in Hocc. apply (H3 (from + m)); [lia|exact Hocc].
Qed.

Lemma indexOf_char_none (t : text) (c : ascii) (from : nat) :
  indexOf t [c] from = None <-> forall k, from <= k -> nth_error t k <> Some c.
Proof.
  unfold indexOf. rewrite find_from_none. split.
  - intros H k Hk Hnth. apply (H (k - from)). apply occurs_char_skipn.
    replace (from + (k - from)) with k by lia. exact Hnth.
  - intros H m Hocc. apply occurs_char_skipn in Hocc. apply (H (from + m)); [lia|exact Hocc].
Qed.

Lemma lastIndexOf_some (t : text) (c : ascii) (n o : nat) :
  lastIndexOf_char t c n = Some o <->
  o <= n /\ nth_error t o = Some c /\ forall k, o < k <= n -> nth_error t k <> Some c.
Proof.
  induction n as [|n IH]; cbn [lastIndexOf_char].
  - destruct (nth_error t 0) as [d|] eqn:E.
    + destruct (Ascii.eqb_spec d c) as [->|Hne].
      * split.
        -- intros H; injection H as <-. split; [lia|]. split; [exact E|]. intros k Hk; lia.
        -- intros [H1 _]. f_equal; lia.
      * split; [discriminate|]. intros [H1 [H2 _]].
        assert (o = 0) as -> by lia. congruence.
    + split; [discriminate|]. intros [H1 [H2 _]].
      assert (o = 0) as -> by lia. congruence.
  - destruct (nth_error t (S n)) as [d|] eqn:E;
      [destruct (Ascii.eqb_spec d c) as [->|Hne]|].
    + split.
      * intros H; injection H as <-. split; [lia|]. split; [exact E|]. intros k Hk; lia.
      * intros [H1 [H2 H3]]. destruct (Nat.eq_dec o (S n)) as [->|Hne]; [reflexivity|].
        exfalso. apply (H3 (S n)); [lia|exact E].
    + rewrite IH. split.
      * intros [H1 [H2 H3]]. split; [lia|]. split; [exact H2|].
        intros k Hk. destruct (Nat.eq_dec k (S n)) as [->|Hk'].
        -- rewrite E. intros H; injection H; auto.
        -- apply H3; lia.
      * intros [H1 [H2 H3]]. destruct (Nat.eq_dec o (S n)) as [->|Ho].
        -- rewrite E in H2. injection H2; intros; contradiction.
        -- split; [lia|]. split; [exact H2|]. intros k Hk; apply H3; lia.
    + rewrite IH. split.
      * intros [H1 [H2 H3]]. split; [lia|]. split; [exact H2|].
        intros k Hk. destruct (Nat.eq_dec k (S n)) as [->|Hk'].
        -- rewrite E. discriminate.
        -- apply H3; lia.
      * intros [H1 [H2 H3]]. destruct (Nat.eq_dec o (S n)) as [->|Ho].
        -- congruence.
        -- split; [lia|]. split; [exact H2|]. intros k Hk; apply H3; lia.
Qed.

Lemma lastIndexOf_none (t : text) (c : ascii) (n : nat) :
  lastIndexOf_char t c n = None <-> forall k, k <= n -> nth_error t k <> Some c.
Proof.
  induction n as [|n IH]; cbn [lastIndexOf_char].
  - destruct (nth_error t 0) as [d|] eqn:E;
      [destruct (Ascii.eqb_spec d c) as [->|Hne]|].
    + split; [discriminate|]. intros H; exfalso; exact (H 0 (le_n 0) E).
    + split; [|reflexivity]. intros _ k Hk. assert (k = 0) as -> by lia.
      rewrite E. intros H; injection H; auto.
    + split; [|reflexivity]. intros _ k Hk. assert (k = 0) as -> by lia. congruence.
  - destruct (nth_error t (S n)) as [d|] eqn:E;
      [destruct (Ascii.eqb_spec d c) as [->|Hne]|].
    + split; [discriminate|]. intros H; exfalso; exact (H (S n) (le_n _) E).
    + rewrite IH. split.
      * intros H k Hk. destruct (Nat.eq_dec k (S n)) as [->|Hk'].
        -- rewrite E. intros H'; injection H'; auto.
        -- apply H; lia.
      * intros H k Hk; apply H; lia.
    + rewrite IH. split.
      * intros H k Hk. destruct (Nat.eq_dec k (S n)) as [->|Hk'].
        -- congruence.
        -- apply H; lia.
      * intros H k Hk; apply H; lia.
Qed.

Lemma close_spec_cons (c : ascii) (s : text) (i : nat) (d : Z) (j : nat) :
  (1 <= d + brace_delta c)%Z ->
  close_spec (c :: s) i d j <-> close_spec s (S i) (d + brace_delta c) j.
Proof.
  intros Hd. unfold close_spec. split.
  - intros [[|n] [Hj [Hn [Hz Hm]]]].
    + exfalso. cbn [firstn balance] in Hz. lia.
    + exists n. cbn [length firstn balance] in *. split; [lia|]. split; [lia|]. split; [lia|].
      intros m Hmn. specialize (Hm (S m) ltac:(lia)). cbn [firstn balance] in Hm. lia.
  - intros [n [Hj [Hn [Hz Hm]]]]. exists (S n). cbn [length firstn balance] in *.
    split; [lia|]. split; [lia|]. split; [lia|].
    intros [|m] Hmn; cbn [firstn balance].
    + lia.
    + specialize (Hm m ltac:(lia)). lia.
Qed.

Lemma scan_close_spec (s : text) (i : nat) (d : Z) (j : nat) :
  (1 <= d)%Z -> scan_close s i d = Some j <-> close_spec s i d j.
Proof.
  revert i d; induction s as [|c s IH]; intros i d Hd; cbn [scan_close].
  - split; [discriminate|]. intros [n [_ [Hn _]]]. simpl in Hn. lia.
  - destruct (Ascii.eqb_spec c c_lbrace) as [Ec|Ec].
    + rewrite close_spec_cons; unfold brace_delta; rewrite Ec; cbn.
      * apply IH; lia.
      * lia.
    + destruct (Ascii.eqb_spec c c_rbrace) as [Ec'|Ec'].
      * destruct (Z.eqb_spec (d - 1) 0) as [Ez|Ez].
        -- split.
           ++ intros H; injection H as <-. exists 0. cbn [firstn balance length].
              unfold brace_delta. subst c. cbn. split; [lia|]. split; [lia|]. split; [lia|].
              intros m Hm; lia.
           ++ intros [[|n] [Hj [Hn [Hz Hm]]]]; [f_equal; lia|].
              exfalso. specialize (Hm 0 ltac:(lia)). cbn [firstn balance] in Hm.
              unfold brace_delta in Hm. subst c. cbn in Hm. lia.
        -- assert (Hdel : brace_delta c = (-1)%Z) by (unfold brace_delta; subst c; reflexivity).
           rewrite close_spec_cons by lia. rewrite Hdel.
           replace (d + -1)%Z with (d - 1)%Z by lia. apply IH; lia.
      * assert (Hdel : brace_delta c = 0%Z).
        { unfold brace_delta. destruct (Ascii.eqb_spec c c_lbrace); [contradiction|].
          destruct (Ascii.eqb_spec c c_rbrace); [contradiction|reflexivity]. }
        rewrite close_spec_cons by lia. rewrite Hdel, Z.add_0_r. apply IH; lia.
Qed.

Lemma open_brace_spec (t : text) (idx o : nat) :
  open_brace t idx = Some o <-> nearest_open t idx o.
Proof.
  unfold open_brace, nearest_open. destruct (indexOf t [c_lbrace] idx) as [o'|] eqn:E.
  - apply indexOf_char_some in E as [E1 [E2 E3]]. split.
    + intros H; injection H as <-. left. auto.
    + intros [[H1 [H2 H3]] | [H1 _]].
      * f_equal. destruct (Nat.lt_trichotomy o o') as [Hl|[Heq|Hl]]; auto.
        -- exfalso; apply (E3 o); [lia|exact H2].
        -- exfalso; apply (H3 o'); [lia|exact E2].
      * exfalso. apply (H1 o'); [lia|exact E2].
  - pose proof (proj1 (indexOf_char_none t c_lbrace idx) E) as Hnone.
    rewrite lastIndexOf_some. split.
    + intros [H1 [H2 H3]]. right. split; [exact Hnone|].
      destruct (Nat.eq_dec o idx) as [->|Ho]; [exfalso; exact (Hnone idx (le_n _) H2)|].
      split; [lia|]. split; [exact H2|]. intros k Hk; apply H3; lia.
    + intros [[H1 [H2 _]] | [H1 [H2 [H3 H4]]]].
      * exfalso; exact (Hnone o H1 H2).
      * split; [lia|]. split; [exact H3|]. intros k Hk.
        destruct (Nat.eq_dec k idx) as [->|Hk']; [apply H1; lia|apply H4; lia].
Qed.

Lemma nth_error_skipn_cons (t : text) (o : nat) (c : ascii) :
  nth_error t o = Some c -> skipn o t = c :: skipn (S o) t.
Proof.
  revert t; induction o as [|o IH]; intros [|d t] H; simpl in *; try discriminate.
  - injection H as ->. reflexivity.
  - apply IH; exact H.
Qed.

Lemma scan_from_open_spec (t : text) (o j : nat) :
  nth_error t o = Some c_lbrace ->
  scan_close (skipn o t) o 0 = Some j <-> matching_close t o j.
Proof.
  intros Ho. rewrite (nth_error_skipn_cons t o c_lbrace Ho).
  cbn [scan_close]. rewrite Ascii.eqb_refl.
  rewrite scan_close_spec by lia.
  rewrite <- (close_spec_cons c_lbrace (skipn (S o) t) o 0 j) by (cbn; lia).
  rewrite <- (nth_error_skipn_cons t o c_lbrace Ho).
  unfold close_spec, matching_close, slice. rewrite length_skipn. split.
  - intros [n [Hj [Hn [Hz Hm]]]]. subst j.
    replace (S (o + n) - o) with (S n) by lia.
    split; [lia|]. split; [lia|].
    intros j' Hj'. replace (S j' - o) with (S (j' - o)) by lia.
    specialize (Hm (j' - o) ltac:(lia)). lia.
  - intros [Hj [Hz Hm]]. exists (j - o).
    replace (S j - o) with (S (j - o)) in Hz by lia.
    split; [lia|]. split; [lia|]. split; [lia|].
    intros m Hmn. specialize (Hm (o + m) ltac:(lia)).
    replace (S (o + m) - o) with (S m) in Hm by lia. lia.
Qed.

Lemma indexOf_first (t key : text) (idx : nat) :
  indexOf t key 0 = Some idx <-> first_occurrence key t idx.
Proof.
  unfold indexOf, first_occurrence. cbn [skipn]. rewrite find_from_some, Nat.sub_0_r.
  split; [intros [_ H]; exact H | intros H; split; [lia|exact H]].
Qed.

Lemma nearest_open_brace (t : text) (idx o : nat) :
  nearest_open t idx o -> nth_error t o = Some c_lbrace.
Proof. intros [[_ [H _]] | [_ [_ [H _]]]]; exact H. Qed.

(** C1 (corrected).  [extractJsonAroundKey(text, key)] returns [blk]
    exactly when [key] occurs in [text] and [blk] is the slice that starts
    at the nearest ['{'] at or after the first occurrence of [key] (else
    the nearest one before it) and ends at the first index where the brace
    depth is back to 0; otherwise it returns null.  For the spec's example the nearest ['{'] after the key is the
    one opening the value of [items], so the result is the inner block
    [{"a":{"b":1}}]. *)
Theorem extractJsonAroundKey_spec :
  (forall t key blk,
     extractJsonAroundKey t key = Some blk <->
     exists idx o j, first_occurrence key t idx /\ nearest_open t idx o
                     /\ matching_close t o j /\ blk = slice t o (S j))
  /\ extractJsonAroundKey (jq "prefix {`items`:{`a`:{`b`:1}}} suffix") (jq "`items`")
     = Some (jq "{`a`:{`b`:1}}").
Proof.
  split; [|vm_compute; reflexivity].
  intros t key blk. unfold extractJsonAroundKey.
  destruct (indexOf t key 0) as [idx|] eqn:Ei.
  - pose proof (proj1 (indexOf_first t key idx) Ei) as Hfirst.
    destruct (open_brace t idx) as [o|] eqn:Eo.
    + pose proof (proj1 (open_brace_spec t idx o) Eo) as Hnear.
      pose proof (nearest_open_brace t idx o Hnear) as Hbr.
      destruct (scan_close (skipn o t) o 0) as [j|] eqn:Es.
      * pose proof (proj1 (scan_from_open_spec t o j Hbr) Es) as Hclose.
        split.
        -- intros H; injection H as <-. exists idx, o, j. auto.
        -- intros [idx' [o' [j' [H1 [H2 [H3 ->]]]]]].
           apply indexOf_first in H1. rewrite Ei in H1. injection H1 as <-.
           apply open_brace_spec in H2. rewrite Eo in H2. injection H2 as <-.
           apply (scan_from_open_spec t o j' Hbr) in H3. rewrite Es in H3.
           injection H3 as <-. reflexivity.
      * split; [discriminate|].
        intros [idx' [o' [j' [H1 [H2 [H3 _]]]]]].
        apply indexOf_first in H1. rewrite Ei in H1. injection H1 as <-.
        apply open_brace_spec in H2. rewrite Eo in H2. injection H2 as <-.
        apply (scan_from_open_spec t o j' Hbr) in H3. congruence.
    + split; [discriminate|].
      intros [idx' [o' [j' [H1 [H2 _]]]]].
      apply indexOf_first in H1. rewrite Ei in H1. injection H1 as <-.
      apply open_brace_spec in H2. congruence.
  - split; [discriminate|].
    intros [idx' [_ [_ [H1 _]]]]. apply indexOf_first in H1. congruence.
Qed.

(** C1 counterexample: on the spec's own example the extractor does not
    return the outer block [{"items":{"a":{"b":1}}}]. *)
(** C1 counterexample: the spec's example does not return the outer block. *)
Lemma extractJsonAroundKey_example_not_outer :
  extractJsonAroundKey (jq "prefix {`items`:{`a`:{`b`:1}}} suffix") (jq "`items`")
  <> Some (jq "{`items`:{`a`:{`b`:1}}}").
Proof. vm_compute. discriminate. Qed.

(** ** Deduplication of the reconciled feed *)

Lemma text_eqb_spec (a b : text) : reflect (a = b) (text_eqb a b).
Proof.
  revert b; induction a as [|c a IH]; intros [|d b]; simpl; try (constructor; congruence).
  destruct (Ascii.eqb_spec c d) as [->|Hne]; simpl.
  - destruct (IH b); constructor; congruence.
  - constructor; congruence.
Qed.











Lemma insert_desc_perm (x : alert) (l : list alert) : Permutation (insert_desc x l) (x :: l).
Proof.
  induction l as [|y l IH]; simpl; [reflexivity|].
  destruct (a_createdAt y <? a_createdAt x)%Z; [reflexivity|].
  rewrite IH. apply perm_swap.
Qed.

Lemma sort_desc_perm (l : list alert) : Permutation (sort_desc l) l.
Proof.
  unfold sort_desc.
  assert (H : forall acc, Permutation (fold_left (fun acc x => insert_desc x acc) l acc) (l ++ acc)).
  { induction l as [|x l IH]; intros acc; simpl; [reflexivity|].
    rewrite IH, insert_desc_perm. symmetry. apply Permutation_middle. }
  rewrite H, app_nil_r. reflexivity.
Qed.







(** C8: an admin viewer gets the admin feed exactly as given: not filtered,
    not deduplicated, not sorted. *)
Theorem alertsData_admin (uid email : text) (adminAlerts userAlerts ownerAdminAlerts : list alert) :
  alertsData (Some (mk_viewer uid email (txt "admin"))) adminAlerts userAlerts ownerAdminAlerts
  = adminAlerts.
Proof. reflexivity. Qed.

(** C8 counterexample: two admin-feed records share their key and both stay. *)
Lemma alertsData_admin_no_dedupe :
  dedup_key alert_old = dedup_key alert_new
  /\ length (alertsData viewer_admin [alert_old; alert_new] [] []) = 2.
Proof. vm_compute. split; reflexivity. Qed.






Ltac classify_cases v :=
  unfold classify;
  destruct (text_eqb_spec v (txt "prepared")) as [H1|H1];
  destruct (text_eqb_spec v (txt "true")) as [H2|H2];
  destruct (text_eqb_spec v (txt "yes")) as [H3|H3];
  destruct (text_eqb_spec v (txt "not available")) as [H4|H4];
  destruct (text_eqb_spec v (txt "not_available")) as [H5|H5];
  destruct (text_eqb_spec v (txt "false")) as [H6|H6];
  destruct (text_eqb_spec v (txt "no")) as [H7|H7];
  simpl; split; intros H; try discriminate; try subst v;
  try (vm_compute in *; discriminate);
  intuition (subst; (discriminate || congruence)).

Lemma classify_prepared (v : text) :
  classify v = Prepared <-> v = txt "prepared" \/ v = txt "true" \/ v = txt "yes".
Proof. classify_cases v. Qed.

Lemma classify_not_available (v : text) :
  classify v = NotAvailable
  <-> v = txt "not available" \/ v = txt "not_available" \/ v = txt "false" \/ v = txt "no".
Proof. classify_cases v. Qed.

Lemma status_of_string (s : text) : status_of (Some (JStr s)) = classify (toLowerCase s).
Proof. destruct s; reflexivity. Qed.

(** C5 (code at the failing input): for string values the classifier is
    total and case-insensitive, [prepared]/[true]/[yes] giving prepared and
    [not available]/[not_available]/[false]/[no] giving not available.  The
    boolean [false] is first turned into the empty string by
    [String(rawVal || '')] and is classified pending, so the items map
    [{"hdmi": false}] yields HDMI Cable with status pending. *)
Theorem classifier_false_is_pending :
  (forall s, status_of (Some (JStr s)) = Prepared
     <-> toLowerCase s = txt "prepared" \/ toLowerCase s = txt "true" \/ toLowerCase s = txt "yes")
  /\ (forall s, status_of (Some (JStr s)) = NotAvailable
     <-> toLowerCase s = txt "not available" \/ toLowerCase s = txt "not_available"
         \/ toLowerCase s = txt "false" \/ toLowerCase s = txt "no")
  /\ status_of (Some (JBool false)) = Pending
  /\ status_of (Some (JStr (txt "FALSE"))) = NotAvailable
  /\ itemsWithStatus (parseEquipmentAlert (msg_alert (jq "{`items`:{`hdmi`:false}}")))
     = Some [mk_item (txt "HDMI Cable") Pending].
Proof.
  split; [intros s; rewrite status_of_string; apply classify_prepared|].
  split; [intros s; rewrite status_of_string; apply classify_not_available|].
  vm_compute. repeat split.
Qed.

(** C6 (amended): the sanitizer is not idempotent.  The adjacent-repeat
    step [/(\b[^\n]{5,200})\s+\1/g -> $1] removes one repeat per match, so
    a phrase written three times in a row keeps two copies after one pass
    and one copy after the second. *)
Theorem sanitize_not_idempotent :
  sanitizeDisplayText (txt "hello hello hello") = txt "hello hello"
  /\ sanitizeDisplayText (txt "hello hello") = txt "hello"
  /\ sanitizeDisplayText (txt "projector projector projector") = txt "projector projector"
  /\ sanitizeDisplayText (txt "projector projector") = txt "projector"
  /\ exists x, sanitizeDisplayText (sanitizeDisplayText x) <> sanitizeDisplayText x.
Proof.
  split; [vm_compute; reflexivity|].
  split; [vm_compute; reflexivity|].
  split; [vm_compute; reflexivity|].
  split; [vm_compute; reflexivity|].
  exists (txt "hello hello hello"). vm_compute. discriminate.
Qed.

(** C6 counterexample. *)
Lemma sanitize_twice_differs :
  sanitizeDisplayText (sanitizeDisplayText (txt "hello hello hello"))
  <> sanitizeDisplayText (txt "hello hello hello").
Proof. vm_compute. discriminate. Qed.

(** C9 (code at the failing input): the message holds no address the email
    pattern matches, because a quote splits the top-level domain; the
    later strip of braces and quotes joins it, and the displayed text
    carries the address [bob@mail.com]. *)
Theorem sanitize_reassembles_email :
  search (jq "Requested by bob@mail.c`om today") email_re 0 = None
  /\ sanitizeDisplayText (jq "Requested by bob@mail.c`om today")
     = txt "Requested by bob@mail.com today"
  /\ search (txt "Requested by bob@mail.com today") email_re 0 <> None.
Proof. vm_compute. split; [reflexivity|split; [reflexivity|discriminate]]. Qed.

(** ** The top-level block pass *)

Lemma segs_shape (s : text) (cur : option text) :
  open_seg cur -> forall b, In b (segs s cur) ->
  exists m, b = c_lbrace :: m ++ [c_rbrace] /\ ~ In c_rbrace m.
Proof.
  revert cur; induction s as [|c s IH]; intros cur Hcur b Hb; simpl in Hb; [contradiction|].
  destruct cur as [acc|].
  - destruct Hcur as [m [-> Hm]].
    destruct (Ascii.eqb_spec c c_rbrace) as [->|Hne].
    + destruct Hb as [<-|Hb]; [|exact (IH None I b Hb)].
      exists m. split; [|exact Hm].
      simpl. rewrite rev_app_distr, rev_involutive. reflexivity.
    + apply (IH (Some (c :: rev m ++ [c_lbrace]))); [|exact Hb].
      exists (m ++ [c]). split.
      * rewrite rev_app_distr. reflexivity.
      * intros H. apply in_app_or in H as [H|[H|[]]]; [contradiction|congruence].
  - destruct (Ascii.eqb_spec c c_lbrace) as [->|Hne].
    + apply (IH (Some [c_lbrace])); [|exact Hb]. exists []. split; [reflexivity|simpl; tauto].
    + exact (IH None I b Hb).
Qed.

Lemma parse_members_obj (f : nat) (s : text) (acc : list (text * jval)) (v : jval) (r : text) :
  parse_members f s acc = Some (v, r) -> exists fs, v = JObj fs.
Proof.
  revert s acc; induction f as [|f IH]; intros s acc H; simpl in H; [discriminate|].
  destruct (skip_ws s) as [|c s'] eqn:E; [discriminate|].
  destruct (c =? c_dquote)%char; [|discriminate].
  destruct (lex_string s' []) as [[k r0]|]; [|discriminate].
  destruct (skip_ws r0) as [|d r']; [discriminate|].
  destruct (d =? ":")%char; [|discriminate].
  destruct (parse_value f r') as [[v0 r'']|]; [|discriminate].
  destruct (skip_ws r'') as [|e r3]; [discriminate|].
  destruct (e =? ",")%char; [exact (IH _ _ H)|].
  destruct (e =? c_rbrace)%char; [|discriminate].
  injection H as <- _. eexists; reflexivity.
Qed.

Lemma JSON_parse_brace_obj (m : text) (v : jval) :
  JSON_parse (c_lbrace :: m) = Some v -> exists fs, v = JObj fs.
Proof.
  unfold JSON_parse. remember (2 * length (c_lbrace :: m) + 2) as n eqn:En.
  destruct n as [|f]; [simpl in En; lia|].
  simpl parse_value.
  destruct (skip_ws m) as [|d r] eqn:E.
  - discriminate.
  - destruct (d =? c_rbrace)%char.
    + intros H. destruct (skip_ws r); [|discriminate]. injection H as <-. eexists; reflexivity.
    + destruct (parse_members f m []) as [[w r']|] eqn:Ep; [|discriminate].
      intros H. destruct (skip_ws r'); [|discriminate]. injection H as <-.
      exact (parse_members_obj _ _ _ _ _ Ep).
Qed.

Lemma first_qualifying_parsing (blocks : list text) :
  (forall b, In b blocks -> exists m, b = c_lbrace :: m ++ [c_rbrace]) ->
  first_qualifying blocks = first_parsing blocks.
Proof.
  induction blocks as [|b bs IH]; intros Hb; simpl; [reflexivity|].
  destruct (JSON_parse b) as [v|] eqn:E.
  - destruct (Hb b (or_introl eq_refl)) as [m ->].
    destruct (JSON_parse_brace_obj _ _ E) as [fs ->].
    unfold qualifies; simpl. rewrite orb_true_r. reflexivity.
  - apply IH. intros b' H. apply Hb. right; exact H.
Qed.

(** C4 (amended): the top-level pass cuts the text with the non-greedy
    pattern [/(\{[\s\S]*?\})/g].  Every block runs from a ['{'] to the first
    ['}'] after it, with no ['}'] inside, whatever the nesting.  The pass
    keeps the first block that [JSON.parse] accepts: such a block begins
    with ['{'], parses to an object, and so always passes the
    items/others/object test.  A block that fails to parse is skipped.  When
    no block parses, [needsObj] keeps its previous value.  For
    [{"a":{"b":1}}] the only block is [{"a":{"b":1}], which does not parse,
    so the pass finds nothing even though the whole text is a valid object. *)
Theorem top_level_pass_spec (prev : option jval) (raw : text) :
  (forall b, In b (brace_segments raw) ->
     exists m, b = c_lbrace :: m ++ [c_rbrace] /\ ~ In c_rbrace m)
  /\ fst (top_level_pass prev raw)
     = match first_parsing (brace_segments raw) with Some v => Some v | None => prev end
  /\ brace_segments (jq "{`a`:{`b`:1}}") = [jq "{`a`:{`b`:1}"]
  /\ fst (top_level_pass None (jq "{`a`:{`b`:1}}")) = None.
Proof.
  assert (Hs : forall b, In b (brace_segments raw) ->
                 exists m, b = c_lbrace :: m ++ [c_rbrace] /\ ~ In c_rbrace m)
    by (apply segs_shape; exact I).
  split; [exact Hs|].
  split.
  - unfold top_level_pass; simpl. rewrite first_qualifying_parsing; [reflexivity|].
    intros b Hb. destruct (Hs b Hb) as [m [-> _]]. exists m; reflexivity.
  - vm_compute. split; reflexivity.
Qed.

(** C4 counterexample: the claimed depth-balanced scan would give the whole
    object, which parses; the lazy pass gives a block that does not, and the
    alert ends with no needs object. *)
Lemma top_level_pass_not_balanced :
  JSON_parse (jq "{`a`:{`b`:1}}") <> None
  /\ first_parsing (brace_segments (jq "{`a`:{`b`:1}}")) = None
  /\ needsObj (parseEquipmentAlert (msg_alert (jq "{`a`:{`b`:1}}"))) = None.
Proof. vm_compute. split; [discriminate|split; reflexivity]. Qed.

Lemma map_exc_none {A B} (f : A -> option B) (l : list A) :
  map_exc f l = None -> exists x, In x l /\ f x = None.
Proof.
  induction l as [|x r IH]; cbn [map_exc]; [discriminate|].
  destruct (f x) eqn:E.
  - destruct (map_exc f r) eqn:Er; [discriminate|].
    intros _. destruct (IH eq_refl) as [y [Hy Hf]]. exists y; split; [right|]; assumption.
  - intros _. exists x; split; [left; reflexivity|exact E].
Qed.

Lemma from_items_array_exc_none (n : jval) (l : list jval) :
  from_items_array_exc n l = None ->
  (exists v, In v l /\ truthy (Some v) = true /\ to_string_throws v = true)
  \/ (exists o, get_prop n (txt "others") = Some o /\ truthy (Some o) = true
                /\ to_string_throws o = true).
Proof.
  unfold from_items_array_exc.
  destruct (map_exc _ l) as [toks|] eqn:Em.
  - destruct (map_tokens [] toks) as [mapped st].
    destruct (nonempty st); [discriminate|].
    destruct (get_prop n (txt "others")) as [o|]; [|discriminate].
    destruct (truthy (Some o)) eqn:Et; [|discriminate].
    unfold js_String. destruct (to_string_throws o) eqn:Eo; [|discriminate].
    intros _. right. exists o. auto.
  - intros _. left. destruct (map_exc_none _ _ Em) as [v [Hv Hf]].
    exists v. split; [exact Hv|]. revert Hf. unfold js_str_or_empty_exc, js_String.
    destruct (truthy (Some v)); [|discriminate].
    destruct (to_string_throws v); [|discriminate]. auto.
Qed.

Lemma parseEquipmentAlert_exc_none (a : alert) :
  parseEquipmentAlert_exc a = None ->
  exists n l,
    fst (extract_needs (a_structuredNote a) (unescape (or_text (a_message a) (a_details a)))) = Some n
    /\ get_prop (normalize_needs n) (txt "items") = Some (JArr l)
    /\ ((exists v, In v l /\ truthy (Some v) = true /\ to_string_throws v = true)
        \/ (exists o, get_prop (normalize_needs n) (txt "others") = Some o
                      /\ truthy (Some o) = true /\ to_string_throws o = true)).
Proof.
  unfold parseEquipmentAlert_exc.
  destruct (extract_needs _ _) as [needs raw]. cbn [fst].
  assert (Hleg : forall x : option (list text * option text * option (list item)),
            x = None -> False -> exists n l,
              needs = Some n /\ get_prop (normalize_needs n) (txt "items") = Some (JArr l)
              /\ ((exists v, In v l /\ truthy (Some v) = true /\ to_string_throws v = true)
                  \/ (exists o, get_prop (normalize_needs n) (txt "others") = Some o
                                /\ truthy (Some o) = true /\ to_string_throws o = true)))
    by (intros; contradiction).
  clear Hleg.
  destruct needs as [n0|].
  - destruct (truthy (Some n0)) eqn:Et.
    + destruct (get_prop (normalize_needs n0) (txt "items")) as [[| | | |l|fs]|] eqn:Ei;
        try (intros H; discriminate H).
      destruct (from_items_array_exc (normalize_needs n0) l) as [[eqList others]|] eqn:Ef;
        [intros H; discriminate H|].
      intros _. exists n0, l. split; [reflexivity|]. split; [exact Ei|].
      exact (from_items_array_exc_none _ _ Ef).
    + destruct (match_group raw requested_re 1) as [g|]; [destruct (nonempty g)|];
        [destruct (from_requested g)| |]; intros H; discriminate H.
  - destruct (match_group raw requested_re 1) as [g|]; [destruct (nonempty g)|];
      [destruct (from_requested g)| |]; intros H; discriminate H.
Qed.

(** C2: [parseEquipmentAlert] is not total.  The items-array branch of
    lines 199-213 runs outside every [try] and calls [String(s || '')] on
    each element and [String(needsObj.others)]; a parsed JSON object with an
    own [toString] key makes that call throw a TypeError, which leaves the
    function.  The message [{"items":[{"toString":1}]}] preceded by the
    text ["items"] reaches this branch (the key search then takes the outer
    object) and throws, as does [{"items":[],"others":{"toString":1}}].
    These are the only exceptions that escape: an escaping exception always
    comes from an element of the items array or from [others].  An element
    that is a plain object prints as [[object Object]], and there the
    exception-aware model gives the result of [parseEquipmentAlert].  A
    throw in the items map of lines 216-226 is caught there and only leaves
    [itemsWithStatus] empty.  [sanitizeDisplayText] has its whole body in a [try] and returns on the
    same message. *)
Theorem parseEquipmentAlert_throws :
  parseEquipmentAlert_exc (msg_alert (jq "`items` {`items`:[{`toString`:1}]}")) = None
  /\ parseEquipmentAlert_exc (msg_alert (jq "`items` {`items`:[],`others`:{`toString`:1}}")) = None
  /\ (forall a, parseEquipmentAlert_exc a = None ->
        exists n l,
          fst (extract_needs (a_structuredNote a) (unescape (or_text (a_message a) (a_details a))))
            = Some n
          /\ get_prop (normalize_needs n) (txt "items") = Some (JArr l)
          /\ ((exists v, In v l /\ truthy (Some v) = true /\ to_string_throws v = true)
              \/ (exists o, get_prop (normalize_needs n) (txt "others") = Some o
                            /\ truthy (Some o) = true /\ to_string_throws o = true)))
  /\ parseEquipmentAlert_exc (msg_alert (jq "`items` {`items`:[`hdmi`,{`a`:1}],`others`:`chairs`}"))
     = Some (parseEquipmentAlert (msg_alert (jq "`items` {`items`:[`hdmi`,{`a`:1}],`others`:`chairs`}")))
  /\ option_map itemsWithStatus
       (parseEquipmentAlert_exc (msg_alert (jq "`items` {`items`:{`hdmi`:{`toString`:1}}}")))
     = Some None
  /\ sanitizeDisplayText (jq "`items` {`items`:[{`toString`:1}]}") = [].
Proof.
  split; [vm_compute; reflexivity|].
  split; [vm_compute; reflexivity|].
  split; [exact parseEquipmentAlert_exc_none|].
  vm_compute. repeat split.
Qed.




(** ** Hidden alerts: saving and loading *)

Lemma quote_char_lex (c : ascii) (rest acc : text) :
  lex_string (quote_char c ++ rest) acc = lex_string rest (c :: acc).
Proof. destruct c as [[] [] [] [] [] [] [] []]; reflexivity. Qed.

Lemma lex_stringify (s rest acc : text) :
  lex_string (flat_map quote_char s ++ c_dquote :: rest) acc = Some (rev acc ++ s, rest).
Proof.
  revert acc; induction s as [|c s IH]; intros acc.
  - simpl. rewrite app_nil_r. reflexivity.
  - simpl flat_map. rewrite <- app_assoc, quote_char_lex, IH. simpl.
    rewrite <- app_assoc. reflexivity.
Qed.

Lemma parse_value_string (f : nat) (s rest : text) :
  1 <= f -> parse_value f (stringify_string s ++ rest) = Some (JStr s, rest).
Proof.
  intros Hf. destruct f as [|f]; [lia|].
  unfold stringify_string. simpl app. cbn [parse_value skip_ws json_ws].
  simpl. rewrite <- app_assoc. simpl. rewrite lex_stringify. reflexivity.
Qed.

Lemma parse_elements_S (f : nat) (s : text) (acc : list jval) :
  parse_elements (S f) s acc =
  match parse_value f s with
  | Some (v, r) =>
      match skip_ws r with
      | e :: r' =>
          if (e =? ",")%char then parse_elements f r' (acc ++ [v])
          else if (e =? "]")%char then Some (JArr (acc ++ [v]), r') else None
      | [] => None
      end
  | None => None
  end.
Proof. reflexivity. Qed.

Lemma skip_ws_cons (c : ascii) (s : text) : json_ws c = false -> skip_ws (c :: s) = c :: s.
Proof. intros H; simpl; rewrite H; reflexivity. Qed.

Lemma parse_elements_strings (l : list text) :
  forall (x : text) (acc : list jval) (f : nat) (rest : text),
  length l + 2 <= f ->
  parse_elements f (stringify_string x ++ flat_map (fun y => ","%char :: stringify_string y) l
                    ++ "]"%char :: rest) acc
  = Some (JArr (acc ++ map JStr (x :: l)), rest).
Proof.
  induction l as [|y l IH]; intros x acc f rest Hf; destruct f as [|f]; try (simpl in Hf; lia).
  - rewrite parse_elements_S. cbn [flat_map app]. rewrite parse_value_string by lia.
    rewrite skip_ws_cons by reflexivity. reflexivity.
  - rewrite parse_elements_S.
    assert (E : flat_map (fun y => ","%char :: stringify_string y) (y :: l) ++ "]"%char :: rest
                = ","%char :: (stringify_string y ++ flat_map (fun y => ","%char :: stringify_string y) l
                               ++ "]"%char :: rest))
      by (simpl; rewrite <- app_assoc; reflexivity).
    rewrite E, parse_value_string by lia.
    rewrite skip_ws_cons by reflexivity.
    change ((","%char =? ","%char)%char) with true. cbv iota.
    rewrite IH by (simpl in Hf; lia).
    rewrite <- app_assoc. reflexivity.
Qed.

Lemma stringify_strings_length (xs : list text) :
  length xs <= length (flat_map (fun y => ","%char :: stringify_string y) xs).
Proof. induction xs as [|y xs IH]; simpl; [lia|]. rewrite length_app. simpl. lia. Qed.

Lemma JSON_parse_stringify_strings (l : list text) :
  JSON_parse (stringify_strings l) = Some (JArr (map JStr l)).
Proof.
  destruct l as [|x xs]; [reflexivity|].
  unfold JSON_parse.
  set (B := stringify_string x ++ flat_map (fun y => ","%char :: stringify_string y) xs ++ ["]"%char]).
  assert (HB : stringify_strings (x :: xs) = "["%char :: B) by reflexivity.
  rewrite HB.
  assert (Hlen : length xs + 2 <= length B).
  { assert (2 <= length (stringify_string x)) by (unfold stringify_string; simpl; rewrite length_app; simpl; lia).
    unfold B. rewrite !length_app. cbn [length].
    pose proof (stringify_strings_length xs). lia. }
  remember (2 * length ("["%char :: B) + 2) as n eqn:En.
  destruct n as [|f]; [lia|].
  cbn [parse_value skip_ws json_ws]. simpl.
  assert (HB2 : B = c_dquote :: (flat_map quote_char x ++ [c_dquote])
                  ++ flat_map (fun y => ","%char :: stringify_string y) xs ++ ["]"%char])
    by (unfold B, stringify_string; simpl; reflexivity).
  rewrite HB2. cbn [skip_ws json_ws]. simpl. rewrite <- HB2.
  assert (Hf : length xs + 2 <= f) by (cbn [length] in En; lia).
  unfold B. rewrite (parse_elements_strings xs x [] f []) by exact Hf.
  reflexivity.
Qed.

Lemma existsb_same_str (same_number : text -> text -> bool) (x : text) (acc : list text) :
  existsb (same_value_zero same_number (JStr x)) (map JStr acc) = existsb (text_eqb x) acc.
Proof. induction acc as [|y acc IH]; simpl; [reflexivity|now rewrite IH]. Qed.

Lemma existsb_text_eqb (x : text) (l : list text) : existsb (text_eqb x) l = true <-> In x l.
Proof.
  rewrite existsb_exists. split.
  - intros [y [Hy He]]. destruct (text_eqb_spec x y); [subst; exact Hy|discriminate].
  - intros H. exists x. split; [exact H|]. destruct (text_eqb_spec x x); congruence.
Qed.

Lemma set_of_array_strings (same_number : text -> text -> bool) (l : list text) :
  NoDup l -> set_of_array same_number (map JStr l) = map JStr l.
Proof.
  unfold set_of_array.
  assert (H : forall acc, NoDup (acc ++ l) ->
    fold_left (fun s x => if existsb (same_value_zero same_number x) s then s else s ++ [x])
              (map JStr l) (map JStr acc) = map JStr (acc ++ l)).
  { induction l as [|y l IH]; intros acc Hnd; simpl; [now rewrite app_nil_r|].
    rewrite existsb_same_str.
    destruct (existsb (text_eqb y) acc) eqn:E.
    - exfalso. apply existsb_text_eqb in E.
      apply NoDup_remove_2 in Hnd. apply Hnd. apply in_or_app; left; exact E.
    - replace (map JStr acc ++ [JStr y]) with (map JStr (acc ++ [y])) by (now rewrite map_app).
      rewrite IH; [now rewrite <- app_assoc|]. now rewrite <- app_assoc. }
  intros Hnd. exact (H [] Hnd).
Qed.

Lemma getItem_set_existing (st : storage) (k v : text) :
  getItem st k <> None -> getItem (set_existing st k v) k = Some v.
Proof.
  induction st as [|[k' v'] st IH]; simpl; [congruence|].
  destruct (text_eqb_spec k k') as [->|Hne]; simpl.
  - intros _. destruct (text_eqb_spec k' k'); congruence.
  - intros H. destruct (text_eqb_spec k k'); [congruence|]. exact (IH H).
Qed.

Lemma getItem_app_new (st : storage) (k v : text) :
  getItem st k = None -> getItem (st ++ [(k, v)]) k = Some v.
Proof.
  induction st as [|[k' v'] st IH]; simpl.
  - intros _. destruct (text_eqb_spec k k); congruence.
  - destruct (text_eqb k k'); [discriminate|exact IH].
Qed.

Lemma getItem_setItem (st : storage) (k v : text) : getItem (setItem st k v) k = Some v.
Proof.
  unfold setItem. destruct (getItem st k) eqn:E.
  - apply getItem_set_existing. congruence.
  - apply getItem_app_new. exact E.
Qed.

(** Saving a set of distinct strings and loading it again gives back the
    same elements in the same order, whatever the ids contain (quotes,
    backslashes, control characters) and whatever else the storage holds. *)
Theorem hidden_ids_round_trip (same_number : text -> text -> bool) (u : viewer)
    (ids : list text) (st : storage) :
  NoDup ids ->
  loadHiddenIds same_number (Some u) (persistHiddenIds (Some u) ids st) = Some (map JStr ids).
Proof.
  intros Hnd. unfold loadHiddenIds, persistHiddenIds. simpl hiddenStorageKey. cbv iota beta.
  rewrite getItem_setItem.
  assert (Hne : nonempty (stringify_strings ids) = true) by (destruct ids; reflexivity).
  rewrite Hne, JSON_parse_stringify_strings, set_of_array_strings by exact Hnd.
  reflexivity.
Qed.

Lemma hidden_ids_round_trip_witness :
  NoDup [jq "a`b"; txt "x\y"]
  /\ loadHiddenIds (fun _ _ => false) (Some (mk_viewer (txt "u1") [] [])) 
       (persistHiddenIds (Some (mk_viewer (txt "u1") [] [])) [jq "a`b"; txt "x\y"] [])
     = Some [JStr (jq "a`b"); JStr (txt "x\y")].
Proof.
  assert (H : NoDup [jq "a`b"; txt "x\y"]).
  { constructor; [simpl; intros [H|[]]; discriminate H|constructor; [simpl; tauto|constructor]]. }
  split; [exact H|].
  exact (hidden_ids_round_trip (fun _ _ => false) (mk_viewer (txt "u1") [] []) _ [] H).
Defined.

Lemma set_add_text_spec (s : list text) (x : text) :
  NoDup s -> NoDup (set_add_text s x) /\ In x (set_add_text s x)
  /\ (forall y, In y (set_add_text s x) <-> y = x \/ In y s)
  /\ firstn (length s) (set_add_text s x) = s.
Proof.
  intros Hnd. unfold set_add_text.
  destruct (existsb (text_eqb x) s) eqn:E.
  - apply existsb_text_eqb in E.
    split; [exact Hnd|]. split; [exact E|]. split; [|apply firstn_all].
    intros y; split; [tauto|intros [->|H]; assumption].
  - assert (Hx : ~ In x s) by (intros H; apply existsb_text_eqb in H; congruence).
    split.
    + apply NoDup_app; [exact Hnd|constructor; [simpl; tauto|constructor]|].
      intros y Hy [<-|[]]; contradiction.
    + split; [apply in_or_app; right; left; reflexivity|]. split.
      * intros y; rewrite in_app_iff; simpl. split; intros [H|H]; intuition congruence.
      * rewrite firstn_app, Nat.sub_diag, firstn_all. simpl. apply app_nil_r.
Qed.

(** Hiding an alert in the bell adds its id to the hidden set (after the
    ids already hidden, which keep their order; no id appears twice) and
    saves the new set, so that loading it for the same user gives the
    new set back. *)
Theorem hideAlertInBell_persists (same_number : text -> text -> bool) (u : viewer)
    (prev : list text) (id : text) (st : storage) :
  NoDup prev ->
  let '(next, st') := hideAlertInBell (Some u) prev id st in
  NoDup next /\ In id next /\ (forall y, In y next <-> y = id \/ In y prev)
  /\ firstn (length prev) next = prev
  /\ loadHiddenIds same_number (Some u) st' = Some (map JStr next).
Proof.
  intros Hnd. unfold hideAlertInBell.
  destruct (set_add_text_spec prev id Hnd) as [H1 [H2 [H3 H4]]].
  split; [exact H1|]. split; [exact H2|]. split; [exact H3|]. split; [exact H4|].
  apply hidden_ids_round_trip. exact H1.
Qed.

Lemma hideAlertInBell_persists_witness :
  NoDup [txt "a1"]
  /\ hideAlertInBell (Some (mk_viewer (txt "u1") [] [])) [txt "a1"] (txt "a2") []
     = ([txt "a1"; txt "a2"],
        [(txt "orbit:hiddenAlerts:u1", jq "[`a1`,`a2`]")])
  /\ (let '(next, st') := hideAlertInBell (Some (mk_viewer (txt "u1") [] [])) [txt "a1"] (txt "a2") [] in
      NoDup next /\ In (txt "a2") next /\ (forall y, In y next <-> y = txt "a2" \/ In y [txt "a1"])
      /\ firstn (length [txt "a1"]) next = [txt "a1"]
      /\ loadHiddenIds (fun _ _ => false) (Some (mk_viewer (txt "u1") [] [])) st'
         = Some (map JStr next)).
Proof.
  assert (H : NoDup [txt "a1"]) by (constructor; [simpl; tauto|constructor]).
  split; [exact H|]. split;
    [|exact (hideAlertInBell_persists (fun _ _ => false) (mk_viewer (txt "u1") [] [])
               [txt "a1"] (txt "a2") [] H)].
  vm_compute. reflexivity.
Defined.

(** ** The mark-as-read mutation *)

Lemma set_delete_add (s : list text) (x : text) :
  set_delete_text (set_add_text s x) x = set_delete_text s x.
Proof.
  unfold set_add_text, set_delete_text. destruct (existsb (text_eqb x) s); [reflexivity|].
  rewrite filter_app. simpl. destruct (text_eqb_spec x x); [|congruence]. simpl. apply app_nil_r.
Qed.

(** A mark-as-read that fails puts back the cache it touched as it was
    before the click, never changes the other cache, and leaves the id out
    of the pending set (if the id is non-empty). *)
Theorem onMutate_onError_restores (isAdmin : bool) (alertId : text) (st : bell_state) :
  let '(st1, ctx) := onMutate isAdmin alertId st in
  let st2 := onError isAdmin ctx st1 in
  cache_admin st2 = cache_admin st /\ cache_user st2 = cache_user st
  /\ pendingMarkIds st2 = if nonempty alertId
                          then set_delete_text (pendingMarkIds st) alertId
                          else set_add_text (pendingMarkIds st) alertId.
Proof.
  destruct st as [ca cu p]. unfold onMutate, onError.
  destruct isAdmin; simpl.
  - split; [destruct ca; reflexivity|]. split; [reflexivity|].
    destruct (nonempty alertId); [apply set_delete_add|reflexivity].
  - split; [reflexivity|]. split; [destruct cu; reflexivity|].
    destruct (nonempty alertId); [apply set_delete_add|reflexivity].
Qed.

Lemma filter_length_split {A : Type} (p q : A -> bool) (l : list A) :
  length (filter p l) = length (filter (fun a => p a && q a) l) + length (filter (fun a => p a && negb (q a)) l).
Proof.
  induction l as [|a l IH]; simpl; [reflexivity|].
  destruct (p a), (q a); simpl; lia.
Qed.

(** For an admin, the optimistic update takes every visible alert with the
    clicked id off the unread badge at once and changes nothing else in the
    count; the alert list keeps its length and order. *)
Theorem onMutate_admin_unread (alertId : text) (st : bell_state) (hidden : list text) :
  let st1 := fst (onMutate true alertId st) in
  unreadCount (cache_list (cache_admin st1)) hidden
  + length (filter (fun a => negb (a_isRead a) && negb (is_hidden hidden a) && text_eqb (a_id a) alertId)
                   (cache_list (cache_admin st)))
  = unreadCount (cache_list (cache_admin st)) hidden
  /\ map a_id (cache_list (cache_admin st1)) = map a_id (cache_list (cache_admin st))
  /\ (forall a, In a (cache_list (cache_admin st1)) -> a_id a = alertId -> a_isRead a = true).
Proof.
  destruct st as [[l|] cu p]; simpl; [|repeat split; intros; contradiction].
  unfold unreadCount.
  rewrite (filter_length_split (fun a => negb (a_isRead a) && negb (is_hidden hidden a))
             (fun a => text_eqb (a_id a) alertId) l).
  split; [|split].
  - assert (E : forall l', length (filter (fun a => negb (a_isRead a) && negb (is_hidden hidden a))
                  (map (fun a => if text_eqb (a_id a) alertId then set_read a else a) l'))
               = length (filter (fun a => negb (a_isRead a) && negb (is_hidden hidden a)
                                           && negb (text_eqb (a_id a) alertId)) l')).
    { induction l' as [|a l' IH]; simpl; [reflexivity|].
      destruct (text_eqb (a_id a) alertId) eqn:Ea; simpl.
      - rewrite andb_false_r. exact IH.
      - rewrite andb_true_r. destruct (negb (a_isRead a) && negb (is_hidden hidden a)); simpl; congruence. }
    rewrite E. lia.
  - rewrite map_map. apply map_ext. intros a. destruct (text_eqb (a_id a) alertId); reflexivity.
  - intros a Ha Hid. apply in_map_iff in Ha as [b [<- Hb]].
    destruct (text_eqb_spec (a_id b) alertId) as [E|E]; [reflexivity|].
    exfalso; apply E; exact Hid.
Qed.





(** ** Order of the feed and of the bell list *)


Lemma insert_desc_sorted (x : alert) (l : list alert) :
  StronglySorted newer_first l -> StronglySorted newer_first (insert_desc x l).
Proof.
  induction l as [|y l IH]; intros Hs; simpl.
  - constructor; constructor.
  - inversion Hs as [|y' l' Hs' Hf]; subst.
    destruct (Z.ltb_spec (a_createdAt y) (a_createdAt x)) as [Hlt|Hge].
    + constructor; [exact Hs|]. constructor; [unfold newer_first; lia|].
      eapply Forall_impl; [|exact Hf]. intros z Hz. unfold newer_first in *; lia.
    + constructor; [exact (IH Hs')|].
      apply Forall_forall. intros z Hz.
      apply (Permutation_in _ (insert_desc_perm x l)) in Hz as [<-|Hz].
      * unfold newer_first; lia.
      * rewrite Forall_forall in Hf. exact (Hf z Hz).
Qed.

Lemma sort_desc_sorted (l : list alert) : StronglySorted newer_first (sort_desc l).
Proof.
  unfold sort_desc.
  assert (H : forall acc, StronglySorted newer_first acc ->
            StronglySorted newer_first (fold_left (fun acc x => insert_desc x acc) l acc)).
  { induction l as [|x l IH]; intros acc Hs; simpl; [exact Hs|].
    apply IH, insert_desc_sorted, Hs. }
  apply H. constructor.
Qed.

Lemma sorted_filter {A : Type} (R : A -> A -> Prop) (p : A -> bool) (l : list A) :
  StronglySorted R l -> StronglySorted R (filter p l).
Proof.
  induction 1 as [|a l Hs IH Hf]; simpl; [constructor|].
  destruct (p a); [|exact IH].
  constructor; [exact IH|].
  rewrite Forall_forall in *. intros x Hx. apply filter_In in Hx as [Hx _]. exact (Hf x Hx).
Qed.

Lemma sorted_app_inv {A : Type} (R : A -> A -> Prop) (l1 l2 : list A) :
  StronglySorted R (l1 ++ l2) ->
  StronglySorted R l1 /\ forall a b, In a l1 -> In b l2 -> R a b.
Proof.
  induction l1 as [|x l1 IH]; simpl; intros Hs.
  - split; [constructor|intros a b []].
  - inversion Hs as [|x' l' Hs' Hf]; subst.
    destruct (IH Hs') as [H1 H2]. rewrite Forall_forall in Hf.
    split.
    + constructor; [exact H1|]. apply Forall_forall. intros y Hy. apply Hf, in_or_app; left; exact Hy.
    + intros a b [<-|Ha] Hb; [apply Hf, in_or_app; right; exact Hb|exact (H2 a b Ha Hb)].
Qed.



(** The open bell lists at most five alerts, none of them hidden, all from
    the feed, newest first; and a visible alert of the feed that is not
    listed is no newer than any of the five listed. *)
Theorem bell_list_spec (data : list alert) (hidden : list text) :
  length (bell_list data hidden) <= 5
  /\ (forall a, In a (bell_list data hidden) -> In a data /\ is_hidden hidden a = false)
  /\ StronglySorted newer_first (bell_list data hidden)
  /\ (forall a, In a data -> is_hidden hidden a = false -> ~ In a (bell_list data hidden) ->
        length (bell_list data hidden) = 5
        /\ forall b, In b (bell_list data hidden) -> (a_createdAt a <= a_createdAt b)%Z).
Proof.
  unfold bell_list.
  set (V := filter (fun a => negb (is_hidden hidden a)) (sort_desc data)).
  assert (HV : StronglySorted newer_first V) by apply sorted_filter, sort_desc_sorted.
  assert (HinV : forall a, In a V <-> In a data /\ is_hidden hidden a = false).
  { intros a. unfold V. rewrite filter_In.
    split; intros [H1 H2].
    - split; [exact (Permutation_in _ (sort_desc_perm data) H1)|destruct (is_hidden hidden a); [discriminate|reflexivity]].
    - split; [exact (Permutation_in _ (Permutation_sym (sort_desc_perm data)) H1)|rewrite H2; reflexivity]. }
  pose proof (firstn_skipn 5 V) as Hsplit.
  assert (Hs := HV). rewrite <- Hsplit in Hs. destruct (sorted_app_inv _ _ _ Hs) as [Hs1 Hcross].
  split; [apply firstn_le_length|].
  split; [intros a Ha; apply HinV; rewrite <- Hsplit; apply in_or_app; left; exact Ha|].
  split; [exact Hs1|].
  intros a Ha Hh Hn.
  assert (HaV : In a V) by (apply HinV; split; assumption).
  rewrite <- Hsplit in HaV. apply in_app_or in HaV as [HaV|HaV]; [contradiction|].
  split.
  - rewrite length_firstn.
    assert (5 < length V).
    { destruct (Nat.lt_ge_cases 5 (length V)) as [Hl|Hl]; [exact Hl|].
      rewrite skipn_all2 in HaV by exact Hl. contradiction. }
    lia.
  - intros b Hb. exact (Hcross b a Hb HaV).
Qed.

(** ** Who sees what in the bell *)



(** ** Hiding and the unread badge *)

Lemma is_hidden_add (prev : list text) (id : text) (a : alert) :
  is_hidden (set_add_text prev id) a = is_hidden prev a || text_eqb (a_id a) id.
Proof.
  unfold is_hidden, set_add_text.
  destruct (existsb (text_eqb id) prev) eqn:E.
  - destruct (text_eqb_spec (a_id a) id) as [->|_].
    + rewrite E. reflexivity.
    + rewrite orb_false_r. reflexivity.
  - rewrite existsb_app. simpl. rewrite orb_false_r. reflexivity.
Qed.

(** Hiding an alert in the bell takes off the unread badge exactly the
    unread alerts with that id that were not hidden yet; the count of the
    others is unchanged. *)
Theorem hideAlertInBell_unread (user : option viewer) (prev : list text) (id : text)
    (st : storage) (data : list alert) :
  unreadCount data (fst (hideAlertInBell user prev id st))
  + length (filter (fun a => negb (a_isRead a) && negb (is_hidden prev a) && text_eqb (a_id a) id) data)
  = unreadCount data prev.
Proof.
  unfold unreadCount, hideAlertInBell; simpl.
  rewrite (filter_length_split (fun a => negb (a_isRead a) && negb (is_hidden prev a))
                               (fun a => text_eqb (a_id a) id) data).
  rewrite Nat.add_comm. f_equal.
  apply f_equal, filter_ext. intros a. rewrite is_hidden_add.
  destruct (a_isRead a), (is_hidden prev a), (text_eqb (a_id a) id); reflexivity.
Qed.

(** ** Facility search *)

















(** ** Booking search *)











Section PushUnseen.
Variable same_number : text -> text -> bool.




End PushUnseen.





(** ** The email shown for a user id *)

(** UserEmailDisplay shows a loading text, an unknown-user text or a
    not-available text naming the id, or the user's email; it shows the
    email only when it is a string with a non-blank character.  Rendering
    throws exactly when the settled user is truthy and its email is a
    truthy value that is not a string. *)
Theorem user_email_text_spec (userId : text) (qs : query_state) (user : option jval) :
  (forall t, user_email_text userId qs user = Some t ->
     t = txt "Loading email..."
     \/ t = txt "Unknown User (ID: " ++ userId ++ txt ")"
     \/ t = txt "Email Not Available (ID: " ++ userId ++ txt ")"
     \/ (exists u, user = Some u /\ get_prop u (txt "email") = Some (JStr t)
                   /\ nonempty (trim t) = true))
  /\ (user_email_text userId qs user = None <->
      qs = Settled /\ truthy user = true
      /\ exists u v, user = Some u /\ get_prop u (txt "email") = Some v
                     /\ truthy (Some v) = true /\ forall e, v <> JStr e).
Proof.
  split.
  - intros t. unfold user_email_text. cbv zeta. destruct qs.
    + intros H. injection H as <-. left. reflexivity.
    + intros H. injection H as <-. right; left. reflexivity.
    + destruct (truthy user) eqn:Tu; cbn [negb].
      2: { intros H. injection H as <-. right; left. reflexivity. }
      destruct user as [u|]; [|discriminate].
      destruct (truthy (get_prop u (txt "email"))) eqn:Te; cbn [negb].
      2: { intros H. injection H as <-. right; right; left. reflexivity. }
      destruct (get_prop u (txt "email")) as [v|] eqn:Ev; [|discriminate].
      destruct v; try discriminate.
      destruct (nonempty (trim s)) eqn:Ne; intros H; injection H as <-.
      * right; right; right. exists u. auto.
      * right; right; left. reflexivity.
  - unfold user_email_text. cbv zeta. destruct qs; split; try discriminate;
      try (intros [H _]; discriminate).
    + destruct (truthy user) eqn:Tu; cbn [negb]; [|discriminate].
      destruct user as [u|]; [|discriminate].
      destruct (truthy (get_prop u (txt "email"))) eqn:Te; cbn [negb]; [|discriminate].
      destruct (get_prop u (txt "email")) as [v|] eqn:Ev; [|discriminate].
      intros H. split; [reflexivity|]. split; [reflexivity|].
      exists u, v. split; [reflexivity|]. split; [exact Ev|]. split; [exact Te|].
      intros e ->. destruct (nonempty (trim e)); discriminate.
    + intros [_ [Tu [u [v [-> [Ev [Te Hv]]]]]]]. rewrite Tu. cbn [negb].
      rewrite Ev, Te. cbn [negb].
      destruct v; try reflexivity. exfalso. exact (Hv s eq_refl).
Qed.

(** ** The end of a mark-as-read *)

Lemma set_delete_twice (s : list text) (x : text) :
  set_delete_text (set_delete_text s x) x = set_delete_text s x.
Proof.
  unfold set_delete_text. induction s as [|y s IH]; simpl; [reflexivity|].
  destruct (text_eqb y x) eqn:E; simpl; [exact IH|rewrite E; simpl; rewrite IH; reflexivity].
Qed.

(** Once a mark-as-read of a non-empty id settles, after a success or
    after a failure, the id is no longer pending and the other pending ids
    are the ones pending before the click, in their order. *)
Theorem markAlertRead_settled_pending (isAdmin failed : bool) (alertId : text) (st : bell_state) :
  nonempty alertId = true ->
  let '(st1, ctx) := onMutate isAdmin alertId st in
  let st2 := if failed then onError isAdmin ctx st1 else st1 in
  pendingMarkIds (onSettled alertId st2) = set_delete_text (pendingMarkIds st) alertId.
Proof.
  intros Hne.
  destruct isAdmin, failed;
    cbn [onMutate onError onSettled pendingMarkIds ctx_alertId fst snd]; rewrite Hne;
    cbn [pendingMarkIds];
    rewrite ?set_delete_add, ?set_delete_twice; reflexivity.
Qed.

Lemma markAlertRead_settled_pending_witness :
  pendingMarkIds (onSettled (txt "7") (fst (onMutate false (txt "7")
                   (mk_bell None None [txt "5"])))) = [txt "5"].
Proof.
  exact (markAlertRead_settled_pending false false (txt "7") (mk_bell None None [txt "5"]) eq_refl).
Defined.
